(** * flag.h: command-line flag parsing

    A shallow embedding of [src/flag.h] (the flag registry, [flag_parse],
    [flag_print_error]) and the properties of the parser that the
    specification states about it.

    Conventions of the embedding.
    - A C string ([char *]) is a [string] holding the bytes before the
      terminating NUL; the terminator is the only NUL of a C string, so
      [strcmp (a, b) == 0] is equality and a pointer [p] into a string has
      [*p == 0] exactly when what remains at [p] is empty.
    - The pair [argc]/[argv] is a [list string] ([argc] is its length);
      [flag_shift_args] takes the head of the list.
    - [c->flags] with [c->flags_count] is a [list Flag]; [flags[i]] is the
      lookup [!!] and an assignment to a field of [flags[i]] is [alter].
    - The untagged union [Flag_Value] is read through the [type] field of
      its flag only, it is embedded as a sum with one constructor per member.
    - [uint64_t] and [unsigned long long] are [Z] with the wrap-around
      modulo [2^64] written out; [errno] is an integer threaded through the
      parser next to the context.
    - A failed [assert] aborts the process: [Aborted]. *)

From Stdlib Require Import ZArith String Ascii List Bool Lia.
From Stdlib Require Import DecimalString DecimalN DecimalPos.
From stdpp Require Import base list strings.

Open Scope string_scope.
Open Scope list_scope.
Open Scope Z_scope.

(** ** Data model (flag.h, lines 42-85) *)

Inductive Flag_Type : Set :=
| FLAG_BOOL
| FLAG_UINT64
| FLAG_STR.

Inductive Flag_Value : Set :=
| as_str (s : option string)   (* [char *], [None] is the null pointer *)
| as_uint64 (n : Z)
| as_bool (b : bool).

Inductive Flag_Error : Set :=
| FLAG_NO_ERROR
| FLAG_ERROR_UNKNOWN
| FLAG_ERROR_NO_VALUE
| FLAG_ERROR_INVALID_NUMBER
| FLAG_ERROR_INTEGER_OVERFLOW.

Record Flag : Set := mkFlag {
  type : Flag_Type;
  name : string;
  desc : string;
  val : Flag_Value;
  def : Flag_Value
}.

Definition FLAGS_CAP : nat := 256.

Record Flag_Context : Set := mkContext {
  flags : list Flag;             (* [flags[0 .. flags_count)] *)
  flag_error : Flag_Error;
  flag_error_name : option string;
  rest_argc : Z;
  rest_argv : list string
}.

Definition flags_count (c : Flag_Context) : nat := length (flags c).

(** The zero-initialised [static Flag_Context flag_global_context]. *)
Definition flag_global_context : Flag_Context :=
  mkContext [] FLAG_NO_ERROR None 0 [].

Global Instance Flag_Type_eq_dec : EqDecision Flag_Type.
Proof. solve_decision. Defined.

Global Instance Flag_Error_eq_dec : EqDecision Flag_Error.
Proof. solve_decision. Defined.

(** Field assignments. *)

Definition set_val (v : Flag_Value) (f : Flag) : Flag :=
  mkFlag (type f) (name f) (desc f) v (def f).

Definition set_def (v : Flag_Value) (f : Flag) : Flag :=
  mkFlag (type f) (name f) (desc f) (val f) v.

Definition set_flags (fs : list Flag) (c : Flag_Context) : Flag_Context :=
  mkContext fs (flag_error c) (flag_error_name c) (rest_argc c) (rest_argv c).

(** [c->flags[i].val.X = v] *)
Definition assign_val (i : nat) (v : Flag_Value) (c : Flag_Context) : Flag_Context :=
  set_flags (alter (set_val v) i (flags c)) c.

(** [c->flags[i].def.X = v] *)
Definition assign_def (i : nat) (v : Flag_Value) (c : Flag_Context) : Flag_Context :=
  set_flags (alter (set_def v) i (flags c)) c.

(** [c->flag_error = e; c->flag_error_name = flag;] *)
Definition set_error (e : Flag_Error) (flag : string) (c : Flag_Context) : Flag_Context :=
  mkContext (flags c) e (Some flag) (rest_argc c) (rest_argv c).

(** [c->rest_argc = argc; c->rest_argv = argv;] *)
Definition set_rest (args : list string) (c : Flag_Context) : Flag_Context :=
  mkContext (flags c) (flag_error c) (flag_error_name c)
            (Z.of_nat (length args)) args.

(** ** Declaration (flag.h, lines 87-129) *)

(** [memset (flag, 0, sizeof ( *flag))] seen through the flag's type. *)
Definition zero_value (t : Flag_Type) : Flag_Value :=
  match t with
  | FLAG_BOOL => as_bool false
  | FLAG_UINT64 => as_uint64 0
  | FLAG_STR => as_str None
  end.

(** [flag_new] returns the index of the new flag (the C code returns
    [&c->flags[index]]); [None] is the failed [assert]. *)
Definition flag_new (t : Flag_Type) (nm ds : string) (c : Flag_Context)
  : option (nat * Flag_Context) :=
  if decide (flags_count c < FLAGS_CAP)%nat then
    Some (flags_count c,
          set_flags (flags c ++ [mkFlag t nm ds (zero_value t) (zero_value t)]) c)
  else None.

(** The handle [&flag->val.X] is the index of the flag. *)
Definition flag_name (handle : nat) (c : Flag_Context) : option string :=
  name <$> flags c !! handle.

Definition flag_bool (nm : string) (d : bool) (ds : string) (c : Flag_Context)
  : option (nat * Flag_Context) :=
  match flag_new FLAG_BOOL nm ds c with
  | Some (i, c1) => Some (i, assign_val i (as_bool d) (assign_def i (as_bool d) c1))
  | None => None
  end.

Definition flag_uint64 (nm : string) (d : Z) (ds : string) (c : Flag_Context)
  : option (nat * Flag_Context) :=
  match flag_new FLAG_UINT64 nm ds c with
  | Some (i, c1) => Some (i, assign_def i (as_uint64 d) (assign_val i (as_uint64 d) c1))
  | None => None
  end.

Definition flag_str (nm : string) (d : option string) (ds : string) (c : Flag_Context)
  : option (nat * Flag_Context) :=
  match flag_new FLAG_STR nm ds c with
  | Some (i, c1) => Some (i, assign_def i (as_str d) (assign_val i (as_str d) c1))
  | None => None
  end.

(** ** The C library pieces the parser uses *)

(** [*p] for a pointer into a C string. *)
Definition deref (p : string) : ascii :=
  match p with
  | EmptyString => zero
  | String ch _ => ch
  end.

(** [*p == 0]: [p] points at the terminator. *)
Definition at_nul (p : string) : bool :=
  match p with
  | EmptyString => true
  | String _ _ => false
  end.

(** [p + n] *)
Fixpoint ptr_add (p : string) (n : nat) : string :=
  match n, p with
  | O, _ => p
  | S n', String _ p' => ptr_add p' n'
  | S _, EmptyString => EmptyString
  end.

Definition ULLONG_MAX : Z := 18446744073709551615.

Definition ERANGE : Z := 34.

(** [isspace] and [isdigit] of the C locale. *)
Definition isspace (ch : ascii) : bool :=
  let n := nat_of_ascii ch in
  ((n =? 32) || ((9 <=? n) && (n <=? 13)))%nat.

Definition isdigit (ch : ascii) : bool :=
  let n := nat_of_ascii ch in
  ((48 <=? n) && (n <=? 57))%nat.

Definition digit_value (ch : ascii) : Z := Z.of_nat (nat_of_ascii ch) - 48.

(** Number of leading white-space characters, and what follows them. *)
Fixpoint skip_spaces (s : string) : nat * string :=
  match s with
  | String ch s' =>
      if isspace ch then let '(n, r) := skip_spaces s' in (S n, r) else (O, s)
  | EmptyString => (O, s)
  end.

(** The optional sign: negative?, characters taken, what follows. *)
Definition scan_sign (s : string) : bool * nat * string :=
  match s with
  | String ch s' =>
      if Ascii.eqb ch "-" then (true, 1%nat, s')
      else if Ascii.eqb ch "+" then (false, 1%nat, s')
      else (false, O, s)
  | EmptyString => (false, O, s)
  end.

(** The decimal digits: the exact value read (from [acc]), characters
    taken, what follows. *)
Fixpoint scan_digits (acc : Z) (s : string) : Z * nat * string :=
  match s with
  | String ch s' =>
      if isdigit ch then
        let '(v, n, r) := scan_digits (acc * 10 + digit_value ch) s' in (v, S n, r)
      else (acc, O, s)
  | EmptyString => (acc, O, s)
  end.

(** [strtoull (nptr, &endptr, 10)] of ISO C (7.22.1.4) in the C locale:
    white space is skipped, one sign is accepted, then decimal digits are
    read.  The result is the value, the offset of [endptr] in [nptr] and
    the new [errno].  Without a digit no conversion is performed and
    [endptr == nptr]; a value above [ULLONG_MAX] gives [ULLONG_MAX] and
    [errno = ERANGE]; after a minus sign the value is negated in the
    unsigned type.  [errno] is written in the range case only. *)
Definition strtoull (nptr : string) (errno : Z) : Z * nat * Z :=
  let '(nsp, s1) := skip_spaces nptr in
  let '(neg, nsg, s2) := scan_sign s1 in
  let '(v, nd, _) := scan_digits 0 s2 in
  if (nd =? 0)%nat then (0, O, errno)
  else if ULLONG_MAX <? v then (ULLONG_MAX, (nsp + nsg + nd)%nat, ERANGE)
  else ((if neg then (- v) mod 2 ^ 64 else v), (nsp + nsg + nd)%nat, errno).

(** ** The parser (flag.h, lines 131-245) *)

(** [flag_shift_args (&argc, &argv)]: the first argument and the
    arguments left; [None] is the failed [assert ( *argc > 0)]. *)
Definition flag_shift_args (args : list string) : option (string * list string) :=
  match args with
  | [] => None
  | arg :: args' => Some (arg, args')
  end.

(** What a piece of [flag_parse] does: it goes on with the next statement
    ([Continue], with the context, [errno] and the arguments left), or
    [flag_parse] returns ([Return]). *)
Inductive Step : Set :=
| Continue (c : Flag_Context) (errno : Z) (args : list string)
| Return (b : bool) (c : Flag_Context) (errno : Z).

(** The body of [case FLAG_UINT64], after the [argc == 0] test: [arg] is
    the shifted argument.  [inl]: the result is stored in flag [i] and the
    [for] loop goes on; [inr]: an error is recorded and [flag_parse]
    returns [false]. *)
Definition flag_parse_uint64 (i : nat) (flag arg : string)
    (c : Flag_Context) (errno : Z) : Flag_Context * Z + Flag_Context * Z :=
  let '(result, endptr, errno) := strtoull arg errno in
  if (endptr =? 0)%nat || negb (at_nul (ptr_add arg endptr)) then
    inr (set_error FLAG_ERROR_INVALID_NUMBER flag c, errno)
  else if (result =? ULLONG_MAX) && (errno =? ERANGE) then
    inr (set_error FLAG_ERROR_INTEGER_OVERFLOW flag c, errno)
  else inl (assign_val i (as_uint64 result) c, errno).

(** The [for] loop over the registry, from index [i] with [n] iterations
    to go ([i + n = flags_count]).  [found] is the local of that name.
    When the loop ends, [found] and the state are handed on. *)
Fixpoint flag_parse_for (n i : nat) (flag : string) (found : bool)
    (c : Flag_Context) (errno : Z) (args : list string) : bool * Step :=
  match n with
  | O => (found, Continue c errno args)
  | S n' =>
      match flags c !! i with
      | None => (found, Continue c errno args)   (* not met: [i < flags_count] *)
      | Some f =>
          if String.eqb (name f) flag then
            match type f with
            | FLAG_BOOL =>
                flag_parse_for n' (S i) flag true
                  (assign_val i (as_bool true) c) errno args
            | FLAG_STR =>
                match args with
                | [] => (found, Return false (set_error FLAG_ERROR_NO_VALUE flag c) errno)
                | arg :: args' =>
                    flag_parse_for n' (S i) flag true
                      (assign_val i (as_str (Some arg)) c) errno args'
                end
            | FLAG_UINT64 =>
                match args with
                | [] => (found, Return false (set_error FLAG_ERROR_NO_VALUE flag c) errno)
                | arg :: args' =>
                    match flag_parse_uint64 i flag arg c errno with
                    | inr (c', errno') => (found, Return false c' errno')
                    | inl (c', errno') =>
                        flag_parse_for n' (S i) flag true c' errno' args'
                    end
                end
            end
          else flag_parse_for n' (S i) flag found c errno args
      end
  end.

(** One iteration of the [while] loop: [flag] is the shifted argument. *)
Definition flag_parse_body (flag : string) (c : Flag_Context) (errno : Z)
    (args : list string) : Step :=
  if negb (Ascii.eqb (deref flag) "-") then
    Return true (set_rest (flag :: args) c) errno
  else if String.eqb flag "--" then
    Return true (set_rest args c) errno
  else
    let flag := ptr_add flag 1 in
    match flag_parse_for (flags_count c) 0 flag false c errno args with
    | (_, Return b c' errno') => Return b c' errno'
    | (found, Continue c' errno' args') =>
        if negb found then Return false (set_error FLAG_ERROR_UNKNOWN flag c') errno'
        else Continue c' errno' args'
    end.

(** How a call ends. *)
Inductive Outcome : Set :=
| Returned (b : bool) (c : Flag_Context) (errno : Z)
| Aborted       (* a failed [assert] *)
| OutOfFuel.    (* the model's loop bound was too small *)

(** [while (argc > 0) { char *flag = flag_shift_args (&argc, &argv); ... }]
    and what follows the loop.  [fuel] bounds the number of iterations. *)
Fixpoint flag_parse_while (fuel : nat) (c : Flag_Context) (errno : Z)
    (args : list string) : Outcome :=
  match args with
  | [] => Returned true (set_rest [] c) errno
  | flag :: args' =>
      match fuel with
      | O => OutOfFuel
      | S fuel' =>
          match flag_parse_body flag c errno args' with
          | Return b c' errno' => Returned b c' errno'
          | Continue c' errno' args'' => flag_parse_while fuel' c' errno' args''
          end
      end
  end.

(** The program name is shifted, then the loop runs.  Every iteration
    shifts at least one argument, so [argc] iterations are enough (see
    [flag_parse_while_fuel] and [flag_parse_returns]). *)
Definition flag_parse (c : Flag_Context) (errno : Z) (argv : list string) : Outcome :=
  match flag_shift_args argv with
  | None => Aborted
  | Some (_, args) => flag_parse_while (length args) c errno args
  end.

Definition flag_rest_argc (c : Flag_Context) : Z := rest_argc c.

Definition flag_rest_argv (c : Flag_Context) : list string := rest_argv c.

(** ** Error report (flag.h, lines 276-300): the text written to [stream].
    [%s] of a null pointer is shown as glibc prints it. *)
Definition show_name (p : option string) : string :=
  match p with
  | Some s => s
  | None => "(null)"
  end.

Definition newline : string := String (ascii_of_nat 10) EmptyString.

Definition flag_print_error (c : Flag_Context) : string :=
  match flag_error c with
  | FLAG_NO_ERROR =>
      "Operation Failed Successfully! Please tell the developer of this software that they don't know what they are doing! :)"
  | FLAG_ERROR_UNKNOWN =>
      "ERROR: -" ++ show_name (flag_error_name c) ++ ": unknown flag" ++ newline
  | FLAG_ERROR_NO_VALUE =>
      "ERROR: -" ++ show_name (flag_error_name c) ++ ": no value provided" ++ newline
  | FLAG_ERROR_INVALID_NUMBER =>
      "ERROR: -" ++ show_name (flag_error_name c) ++ ": invalid number" ++ newline
  | FLAG_ERROR_INTEGER_OVERFLOW =>
      "ERROR: -" ++ show_name (flag_error_name c) ++ ": integer overflow" ++ newline
  end.

(** ** What the parser may change

    [updated seen f f']: [f'] is the flag [f], with another current value
    at most, and with the same one when the name of [f] is not in [seen]. *)

Definition step_ctx (st : Step) : Flag_Context :=
  match st with
  | Continue c _ _ => c
  | Return _ c _ => c
  end.

Definition updated (seen : list string) (f f' : Flag) : Prop :=
  type f' = type f ∧ name f' = name f ∧ desc f' = desc f ∧ def f' = def f ∧
  (name f ∉ seen → val f' = val f).

Definition updates (seen : list string) (fs fs' : list Flag) : Prop :=
  Forall2 (updated seen) fs fs'.

(** ** The [while] loop *)

(** A token that the loop looks up in the registry: it starts with a dash
    and is not the terminator. *)
Definition flag_token (flag : string) : bool :=
  Ascii.eqb (deref flag) "-" && negb (String.eqb flag "--").

(** The names that the loop looks up, in order. *)
Fixpoint flag_parse_seen (fuel : nat) (c : Flag_Context) (errno : Z)
    (args : list string) : list string :=
  match args with
  | [] => []
  | flag :: args' =>
      match fuel with
      | O => []
      | S fuel' =>
          if flag_token flag then
            ptr_add flag 1 ::
              match flag_parse_body flag c errno args' with
              | Continue c' errno' args'' => flag_parse_seen fuel' c' errno' args''
              | Return _ _ _ => []
              end
          else []
      end
  end.

(** The names looked up by [flag_parse c errno argv]. *)
Definition flag_parse_names (c : Flag_Context) (errno : Z) (argv : list string)
  : list string :=
  match flag_shift_args argv with
  | None => []
  | Some (_, args) => flag_parse_seen (length args) c errno args
  end.

(** The pass arrives at the head of the [while] loop in state [c'],
    [errno'] with [args'] left. *)
Inductive flag_parse_reaches :
  Flag_Context → Z → list string → Flag_Context → Z → list string → Prop :=
| reaches_here c errno args : flag_parse_reaches c errno args c errno args
| reaches_next flag args c errno c1 errno1 args1 c2 errno2 args2 :
    flag_parse_body flag c errno args = Continue c1 errno1 args1 →
    flag_parse_reaches c1 errno1 args1 c2 errno2 args2 →
    flag_parse_reaches c errno (flag :: args) c2 errno2 args2.

(** [flag_parse c0 errno0 argv], after the program name is shifted,
    arrives at the head of the loop in state [c], [errno], [args]. *)
Definition flag_parse_arrives (c0 : Flag_Context) (errno0 : Z) (argv : list string)
    (c : Flag_Context) (errno : Z) (args : list string) : Prop :=
  ∃ prog args0, argv = prog :: args0 ∧
    flag_parse_reaches c0 errno0 args0 c errno args.

(** What the body of the [while] loop does with the result of its
    [for] loop. *)
Definition after_for (nm : string) (r : bool * Step) : Step :=
  match r with
  | (_, Return b c' errno') => Return b c' errno'
  | (found, Continue c' errno' args') =>
      if negb found then Return false (set_error FLAG_ERROR_UNKNOWN nm c') errno'
      else Continue c' errno' args'
  end.

(** ** Decimal numerals *)

Fixpoint all_chars (p : ascii → bool) (s : string) : bool :=
  match s with
  | EmptyString => true
  | String ch s' => p ch && all_chars p s'
  end.

(** The value of a string of decimal digits, read from the left. *)
Fixpoint decimal_from (acc : Z) (ds : string) : Z :=
  match ds with
  | EmptyString => acc
  | String ch ds' => decimal_from (acc * 10 + digit_value ch) ds'
  end.

Definition decimal_value (ds : string) : Z := decimal_from 0 ds.

(** A token of decimal digits only, one at least. *)
Definition all_digits (tok : string) : bool :=
  negb (at_nul tok) && all_chars isdigit tok.

(** [numeral tok neg v]: the whole of [tok] is white space (possibly
    none), then a sign [+] or [-] (possibly none, [neg] tells a minus),
    then one or more decimal digits of value [v]. *)
Definition numeral (tok : string) (neg : bool) (v : Z) : Prop :=
  ∃ ws sg ds, tok = (ws ++ sg ++ ds)%string ∧
    all_chars isspace ws = true ∧
    (sg = "" ∧ neg = false ∨ sg = "+" ∧ neg = false ∨ sg = "-" ∧ neg = true) ∧
    ds ≠ "" ∧ all_chars isdigit ds = true ∧
    v = decimal_value ds.

(** The value that [strtoull] returns for the numeral. *)
Definition numeral_result (neg : bool) (v : Z) : Z :=
  if neg then (- v) mod 2 ^ 64 else v.

(** ** Flags of one name *)

Definition takes_value (f : Flag) : bool :=
  match type f with
  | FLAG_BOOL => false
  | FLAG_UINT64 | FLAG_STR => true
  end.

(** How many flags of [fs] have the name [nm] and take a value. *)
Fixpoint count_value_flags (nm : string) (fs : list Flag) : nat :=
  match fs with
  | [] => O
  | f :: fs' =>
      ((if String.eqb (name f) nm && takes_value f then 1 else 0)
       + count_value_flags nm fs')%nat
  end.

(** [assigned_at args k f f']: [f'] is the flag [f] after the assignment
    that its type calls for, with the token of [args] at position [k] as
    the value of a string or an integer flag. *)
Definition assigned_at (args : list string) (k : nat) (f f' : Flag) : Prop :=
  type f' = type f ∧ name f' = name f ∧ desc f' = desc f ∧ def f' = def f ∧
  match type f with
  | FLAG_BOOL => val f' = as_bool true
  | FLAG_STR => ∃ arg, args !! k = Some arg ∧ val f' = as_str (Some arg)
  | FLAG_UINT64 =>
      ∃ arg neg v, args !! k = Some arg ∧ numeral arg neg v ∧
        val f' = as_uint64 (numeral_result neg v)
  end.

(** A registry for the examples: the three kinds of flags, declared with
    the functions of the library. *)
Definition example_context : Flag_Context :=
  default flag_global_context
    (c1 ← snd <$> flag_bool "verbose" false "more output" flag_global_context;
     c2 ← snd <$> flag_uint64 "count" 7 "how many" c1;
     snd <$> flag_str "out" None "where to" c2).

(** ** The declaration phase *)

(** A call of one of the three declaration functions. *)
Inductive Declaration : Set :=
| declare_bool (nm : string) (d : bool) (ds : string)
| declare_uint64 (nm : string) (d : Z) (ds : string)
| declare_str (nm : string) (d : option string) (ds : string).

Definition declare (d : Declaration) (c : Flag_Context) : option (nat * Flag_Context) :=
  match d with
  | declare_bool nm d ds => flag_bool nm d ds c
  | declare_uint64 nm d ds => flag_uint64 nm d ds c
  | declare_str nm d ds => flag_str nm d ds c
  end.

Definition declared_name (d : Declaration) : string :=
  match d with
  | declare_bool nm _ _ | declare_uint64 nm _ _ | declare_str nm _ _ => nm
  end.

Definition declared_default (d : Declaration) : Flag_Value :=
  match d with
  | declare_bool _ d _ => as_bool d
  | declare_uint64 _ d _ => as_uint64 d
  | declare_str _ d _ => as_str d
  end.

(** [declares c c']: [c'] is [c] after some more declarations. *)
Inductive declares : Flag_Context → Flag_Context → Prop :=
| declares_none c : declares c c
| declares_more d c h c1 c2 :
    declare d c = Some (h, c1) → declares c1 c2 → declares c c2.

(** A registry with names declared twice. *)
Definition duplicate_context : Flag_Context :=
  default flag_global_context
    (c1 ← snd <$> flag_bool "v" false "first v" flag_global_context;
     c2 ← snd <$> flag_bool "v" false "second v" c1;
     c3 ← snd <$> flag_str "o" None "first o" c2;
     snd <$> flag_str "o" None "second o" c3).

(** ** Usage text (flag.h, lines 247-274): the text written to [stream] *)

(** [printf ("%" PRIu64, n)]: the decimal digits of [n]. *)
Definition print_uint64 (n : Z) : string :=
  DecimalString.NilEmpty.string_of_uint (N.to_uint (Z.to_N n)).

(** The members of the union that [flag_print_options] reads; a flag made
    by the declaration functions holds the member of its type. *)
Definition get_bool (v : Flag_Value) : bool :=
  match v with
  | as_bool b => b
  | _ => false
  end.

Definition get_uint64 (v : Flag_Value) : Z :=
  match v with
  | as_uint64 n => n
  | _ => 0
  end.

Definition get_str (v : Flag_Value) : option string :=
  match v with
  | as_str s => s
  | _ => None
  end.

(** One iteration of the loop of [flag_print_options]. *)
Definition print_option (f : Flag) : string :=
  ("    -" ++ name f ++ newline ++
   "        " ++ desc f ++ newline ++
   match type f with
   | FLAG_BOOL =>
       if get_bool (def f) then
         "        Default: " ++ (if get_bool (def f) then "true" else "false") ++ newline
       else ""
   | FLAG_UINT64 =>
       "        Default: " ++ print_uint64 (get_uint64 (def f)) ++ newline
   | FLAG_STR =>
       match get_str (def f) with
       | Some s => "        Default: " ++ s ++ newline
       | None => ""
       end
   end)%string.

Fixpoint print_options (fs : list Flag) : string :=
  match fs with
  | [] => ""
  | f :: fs' => (print_option f ++ print_options fs')%string
  end.

Definition flag_print_options (c : Flag_Context) : string :=
  print_options (flags c).

(** The text of the reasons of [flag_print_error]. *)
Definition error_reasons : list string :=
  ["unknown flag"; "no value provided"; "invalid number"; "integer overflow"].

(** ** The values that a pass leaves in a flag

    [kept_or_set args f f']: [f'] is [f], or [f] with the current value
    that the parser assigns to a flag of its type: [true], a token of
    [args], a number of the range of [uint64_t]. *)
Definition kept_or_set (args : list string) (f f' : Flag) : Prop :=
  f' = f ∨
  match type f with
  | FLAG_BOOL => f' = set_val (as_bool true) f
  | FLAG_STR => ∃ arg, arg ∈ args ∧ f' = set_val (as_str (Some arg)) f
  | FLAG_UINT64 => ∃ r, 0 ≤ r ≤ ULLONG_MAX ∧ f' = set_val (as_uint64 r) f
  end.

Definition declared_type (d : Declaration) : Flag_Type :=
  match d with
  | declare_bool _ _ _ => FLAG_BOOL
  | declare_uint64 _ _ _ => FLAG_UINT64
  | declare_str _ _ _ => FLAG_STR
  end.

Definition declared_desc (d : Declaration) : string :=
  match d with
  | declare_bool _ _ ds | declare_uint64 _ _ ds | declare_str _ _ ds => ds
  end.

(** The flag that a declaration makes. *)
Definition declared_flag (d : Declaration) : Flag :=
  mkFlag (declared_type d) (declared_name d) (declared_desc d)
         (declared_default d) (declared_default d).

(** The entry of the usage text for a declaration: name, description
    and, for a default that is shown, the default. *)
Definition declared_entry (d : Declaration) : string :=
  ("    -" ++ declared_name d ++ newline ++
   "        " ++ declared_desc d ++ newline ++
   match d with
   | declare_bool _ true _ => "        Default: true" ++ newline
   | declare_bool _ false _ => ""
   | declare_uint64 _ n _ => "        Default: " ++ print_uint64 n ++ newline
   | declare_str _ (Some s) _ => "        Default: " ++ s ++ newline
   | declare_str _ None _ => ""
   end)%string.

(** * Properties *)

Lemma updated_refl seen f : updated seen f f.
Proof. by repeat split. Qed.

Lemma updates_refl seen fs : updates seen fs fs.
Proof. apply Forall_Forall2_diag, Forall_forall. intros; apply updated_refl. Qed.

Lemma updates_trans seen1 seen2 seen fs1 fs2 fs3 :
  seen1 ⊆ seen → seen2 ⊆ seen →
  updates seen1 fs1 fs2 → updates seen2 fs2 fs3 → updates seen fs1 fs3.
Proof.
  intros H1 H2 U1 U2.
  eapply Forall2_trans; [| exact U1 | exact U2].
  intros f g h (Ht & Hn & Hd & Hf & Hv) (Ht' & Hn' & Hd' & Hf' & Hv').
  repeat split; try congruence.
  intros Hnot. rewrite Hv', Hv; [done | |].
  - intros Hin; apply Hnot, H1, Hin.
  - rewrite Hn. intros Hin; apply Hnot, H2, Hin.
Qed.

Lemma updates_alter seen fs i v :
  (∀ f, fs !! i = Some f → name f ∈ seen) →
  updates seen fs (alter (set_val v) i fs).
Proof.
  intros Hin. apply Forall2_alter_r; [apply updates_refl |].
  intros f g Hf Hg _. rewrite Hf in Hg. inversion Hg; subst g.
  repeat split. intros Hnot. destruct Hnot. by apply Hin.
Qed.

Lemma updates_lookup seen fs fs' j f' :
  updates seen fs fs' → fs' !! j = Some f' →
  ∃ f, fs !! j = Some f ∧ updated seen f f'.
Proof. intros U Hj. eapply Forall2_lookup_r in U as (f & ? & ?); eauto. Qed.

Lemma updates_lookup_l seen fs fs' j f :
  updates seen fs fs' → fs !! j = Some f →
  ∃ f', fs' !! j = Some f' ∧ updated seen f f'.
Proof. intros U Hj. eapply Forall2_lookup_l in U as (f' & ? & ?); eauto. Qed.

(** A flag whose name was not looked up is the same flag afterwards. *)
Lemma updates_unseen seen fs fs' j f :
  updates seen fs fs' → fs !! j = Some f → name f ∉ seen → fs' !! j = Some f.
Proof.
  intros U Hj Hnot.
  destruct (updates_lookup_l _ _ _ _ _ U Hj) as (f' & Hf' & Ht & Hn & Hd & Hdf & Hv).
  rewrite Hf'. f_equal. destruct f, f'; simpl in *.
  rewrite Hv by done. congruence.
Qed.

(** The integer case stores a value in flag [i], or records one of the two
    number errors. *)
Lemma flag_parse_uint64_cases i flag arg c errno :
  match flag_parse_uint64 i flag arg c errno with
  | inl (c', _) => ∃ r, c' = assign_val i (as_uint64 r) c
  | inr (c', _) =>
      c' = set_error FLAG_ERROR_INVALID_NUMBER flag c ∨
      c' = set_error FLAG_ERROR_INTEGER_OVERFLOW flag c
  end.
Proof.
  unfold flag_parse_uint64.
  destruct (strtoull arg errno) as [[result endptr] errno'].
  destruct (_ || _); [by left |].
  destruct (_ && _); [by right | by eexists].
Qed.

(** The invariant of the [for] loop. *)
Lemma flag_parse_for_inv n : ∀ i flag found c errno args found' st,
  flag_parse_for n i flag found c errno args = (found', st) →
  updates [flag] (flags c) (flags (step_ctx st)) ∧
  (∀ j, (j < i)%nat → flags (step_ctx st) !! j = flags c !! j) ∧
  rest_argc (step_ctx st) = rest_argc c ∧
  rest_argv (step_ctx st) = rest_argv c ∧
  match st with
  | Continue c' _ args' =>
      flag_error c' = flag_error c ∧ flag_error_name c' = flag_error_name c ∧
      args' `suffix_of` args ∧ (found = true → found' = true)
  | Return b c' _ =>
      b = false ∧ flag_error c' ≠ FLAG_NO_ERROR ∧
      flag_error c' ≠ FLAG_ERROR_UNKNOWN ∧ flag_error_name c' = Some flag
  end.
Proof.
  induction n as [|n IH]; intros i flag found c errno args found' st Hfor;
    simpl in Hfor.
  { inversion Hfor; subst; simpl. split; [apply updates_refl | done]. }
  destruct (flags c !! i) as [f|] eqn:Hi.
  2:{ inversion Hfor; subst; simpl. split; [apply updates_refl | done]. }
  assert (Hstep : ∀ v e args1,
    args1 `suffix_of` args →
    flag_parse_for n (S i) flag true (assign_val i v c) e args1 = (found', st) →
    name f = flag →
    updates [flag] (flags c) (flags (step_ctx st)) ∧
    (∀ j, (j < i)%nat → flags (step_ctx st) !! j = flags c !! j) ∧
    rest_argc (step_ctx st) = rest_argc c ∧
    rest_argv (step_ctx st) = rest_argv c ∧
    match st with
    | Continue c' _ args' =>
        flag_error c' = flag_error c ∧ flag_error_name c' = flag_error_name c ∧
        args' `suffix_of` args ∧ (found = true → found' = true)
    | Return b c' _ =>
        b = false ∧ flag_error c' ≠ FLAG_NO_ERROR ∧
        flag_error c' ≠ FLAG_ERROR_UNKNOWN ∧ flag_error_name c' = Some flag
    end).
  { intros v e args1 Hsuf Hrec Hname.
    apply IH in Hrec as (U & Hlt & Hc & Hv & Hst). simpl in *.
    split; [| split; [| split; [done | split; [done |]]]].
    - eapply updates_trans; [reflexivity | reflexivity | | exact U].
      apply updates_alter. intros g Hg. rewrite Hi in Hg.
      inversion Hg; subst. by left.
    - intros j Hj. rewrite Hlt by lia. apply list_lookup_alter_ne. lia.
    - destruct st as [c' e' args'|b c' e']; [| done].
      destruct Hst as (? & ? & Hsuf' & Hf). repeat split; try done.
      + by etrans.
      + intros _. by apply Hf. }
  destruct (String.eqb (name f) flag) eqn:Heq.
  2:{ apply IH in Hfor as (U & Hlt & Hc & Hv & Hst).
      split; [done | split; [| done]]. intros j Hj. apply Hlt. lia. }
  apply String.eqb_eq in Heq.
  destruct (type f).
  - eapply Hstep; eauto.
  - destruct args as [|arg args'].
    + inversion Hfor; subst; simpl. split; [apply updates_refl | done].
    + pose proof (flag_parse_uint64_cases i flag arg c errno) as Hu.
      destruct (flag_parse_uint64 i flag arg c errno) as [[c' e']|[c' e']].
      * destruct Hu as [r ->].
        eapply (Hstep _ _ args'); [by apply suffix_cons_r | exact Hfor | done].
      * inversion Hfor; subst; simpl.
        destruct Hu as [-> | ->]; simpl; (split; [apply updates_refl | done]).
  - destruct args as [|arg args'].
    + inversion Hfor; subst; simpl. split; [apply updates_refl | done].
    + eapply (Hstep _ _ args'); [by apply suffix_cons_r | exact Hfor | done].
Qed.

(** Flags of another name are passed over. *)
Lemma flag_parse_for_skip m : ∀ n i flag found c errno args,
  (∀ j f, (i ≤ j < i + m)%nat → flags c !! j = Some f → name f ≠ flag) →
  flag_parse_for (m + n) i flag found c errno args =
  flag_parse_for n (i + m) flag found c errno args.
Proof.
  induction m as [|m IH]; intros n i flag found c errno args Hno; simpl.
  { by rewrite Nat.add_0_r. }
  destruct (flags c !! i) as [f|] eqn:Hi.
  - assert (Hne : name f ≠ flag) by (apply (Hno i); [lia | done]).
    apply String.eqb_neq in Hne. rewrite Hne.
    rewrite IH; [f_equal; lia |].
    intros j g Hj. apply Hno. lia.
  - apply lookup_ge_None in Hi.
    assert (Hend : ∀ k j, (length (flags c) ≤ j)%nat →
      flag_parse_for k j flag found c errno args = (found, Continue c errno args)).
    { intros [|k] j Hj; simpl; [done |].
      apply lookup_ge_None in Hj. by rewrite Hj. }
    rewrite Hend by lia. done.
Qed.

Lemma flag_parse_for_no_match n i flag found c errno args :
  (∀ j f, (i ≤ j)%nat → flags c !! j = Some f → name f ≠ flag) →
  flag_parse_for n i flag found c errno args = (found, Continue c errno args).
Proof.
  intros Hno.
  replace n with (n + 0)%nat by lia.
  rewrite flag_parse_for_skip; [done |].
  intros j f Hj. apply Hno. lia.
Qed.

(** The loop up to the first flag of the looked-up name. *)
Lemma flag_parse_for_first i f flag c errno args :
  flags c !! i = Some f →
  (∀ j g, (j < i)%nat → flags c !! j = Some g → name g ≠ flag) →
  flag_parse_for (flags_count c) 0 flag false c errno args =
  flag_parse_for (S (flags_count c - S i)) i flag false c errno args.
Proof.
  intros Hi Hno. apply lookup_lt_Some in Hi. unfold flags_count.
  replace (length (flags c)) with (i + S (length (flags c) - S i))%nat at 1 by lia.
  rewrite flag_parse_for_skip; [done |].
  intros j g Hj. apply Hno. lia.
Qed.

Lemma flag_parse_body_inv flag c errno args :
  match flag_parse_body flag c errno args with
  | Continue c' _ args' =>
      flag_token flag = true ∧
      updates [ptr_add flag 1] (flags c) (flags c') ∧
      flag_error c' = flag_error c ∧ flag_error_name c' = flag_error_name c ∧
      rest_argc c' = rest_argc c ∧ rest_argv c' = rest_argv c ∧
      args' `suffix_of` args
  | Return true c' errno' =>
      flag_token flag = false ∧ errno' = errno ∧
      (c' = set_rest (flag :: args) c ∨ c' = set_rest args c)
  | Return false c' _ =>
      flag_token flag = true ∧
      updates [ptr_add flag 1] (flags c) (flags c') ∧
      flag_error c' ≠ FLAG_NO_ERROR ∧
      flag_error_name c' = Some (ptr_add flag 1) ∧
      rest_argc c' = rest_argc c ∧ rest_argv c' = rest_argv c
  end.
Proof.
  unfold flag_parse_body, flag_token.
  destruct (Ascii.eqb (deref flag) "-"); simpl; [| by auto].
  destruct (String.eqb flag "--"); simpl; [by auto |].
  destruct (flag_parse_for _ _ _ _ _ _ _) as [found st] eqn:Hfor.
  apply flag_parse_for_inv in Hfor as (U & _ & Hc & Hv & Hst).
  destruct st as [c' e' args'|b c' e']; simpl in *.
  - destruct Hst as (He & Hn & Hsuf & _).
    destruct found; simpl; [done |].
    repeat split; done.
  - destruct Hst as (-> & He & _ & Hn). done.
Qed.

Lemma flag_parse_while_fuel fuel1 : ∀ fuel2 c errno args,
  (length args ≤ fuel1)%nat → (length args ≤ fuel2)%nat →
  flag_parse_while fuel1 c errno args = flag_parse_while fuel2 c errno args ∧
  flag_parse_seen fuel1 c errno args = flag_parse_seen fuel2 c errno args ∧
  flag_parse_while fuel1 c errno args ≠ OutOfFuel.
Proof.
  induction fuel1 as [|fuel1 IH]; intros fuel2 c errno [|flag args] H1 H2;
    simpl in *; try done; try lia.
  { by destruct fuel2. }
  { by destruct fuel2. }
  destruct fuel2 as [|fuel2]; [lia |]. simpl.
  pose proof (flag_parse_body_inv flag c errno args) as Hb.
  destruct (flag_parse_body flag c errno args) as [c' e' args'|b c' e'].
  - destruct Hb as (_ & _ & _ & _ & _ & _ & Hsuf%suffix_length).
    destruct (IH fuel2 c' e' args') as (-> & -> & Hne); [lia | lia |].
    done.
  - done.
Qed.

(** [flag_parse] returns: the loop bound of the model is never reached. *)
Lemma flag_parse_returns c errno argv :
  argv ≠ [] → ∃ b c' errno', flag_parse c errno argv = Returned b c' errno'.
Proof.
  destruct argv as [|prog args]; [done | intros _].
  unfold flag_parse. simpl.
  destruct (flag_parse_while_fuel (length args) (length args) c errno args)
    as (_ & _ & Hne); [done | done |].
  revert Hne. generalize (length args) at 1 2; intros fuel.
  clear prog. revert c errno args.
  induction fuel as [|fuel IH]; intros c errno [|flag args] Hne; simpl in *;
    eauto; [done |].
  destruct (flag_parse_body flag c errno args); eauto.
Qed.

Lemma flag_parse_reaches_while c0 e0 args0 c e args :
  flag_parse_reaches c0 e0 args0 c e args →
  (length args ≤ length args0)%nat ∧
  (∃ pre, flag_parse_seen (length args0) c0 e0 args0 =
          pre ++ flag_parse_seen (length args) c e args ∧
          updates pre (flags c0) (flags c)) ∧
  flag_error c = flag_error c0 ∧ flag_error_name c = flag_error_name c0 ∧
  rest_argc c = rest_argc c0 ∧ rest_argv c = rest_argv c0 ∧
  ∀ fuel, (length args0 ≤ fuel)%nat →
    flag_parse_while fuel c0 e0 args0 = flag_parse_while (length args) c e args.
Proof.
  induction 1 as [c e args|flag args c e c1 e1 args1 c2 e2 args2 Hb Hr IH].
  { split; [done |]. split; [exists []; split; [done | apply updates_refl] |].
    do 4 (split; [done |]).
    intros fuel Hf. by apply flag_parse_while_fuel. }
  destruct IH as (Hlen & (pre & Hpre & U) & He & Hn & Hc & Hv & IH).
  pose proof (flag_parse_body_inv flag c e args) as Hinv. rewrite Hb in Hinv.
  destruct Hinv as (Htok & U1 & He1 & Hn1 & Hc1 & Hv1 & Hsuf%suffix_length).
  simpl. rewrite Htok, Hb.
  split; [lia |]. split.
  { exists (ptr_add flag 1 :: pre). split.
    - destruct (flag_parse_while_fuel (length args1) (length args) c1 e1 args1)
        as (_ & <- & _); [done | lia |].
      by rewrite Hpre.
    - eapply updates_trans; [| | exact U1 | exact U].
      + intros x Hx. apply list_elem_of_singleton in Hx as ->. by left.
      + intros x Hx. by right. }
  do 4 (split; [congruence |]).
  intros [|fuel] Hf; [lia |]. simpl. rewrite Hb. apply IH. lia.
Qed.

Lemma flag_parse_arrives_while c0 e0 argv c e args :
  flag_parse_arrives c0 e0 argv c e args →
  flag_parse c0 e0 argv = flag_parse_while (length args) c e args.
Proof.
  intros (prog & args0 & -> & Hr). simpl.
  by apply (flag_parse_reaches_while _ _ _ _ _ _ Hr).
Qed.

(** How a pass ends: it arrives at the head of the loop with no
    argument left, or at a token on which the body of the loop returns. *)
Lemma flag_parse_while_ends fuel : ∀ c0 e0 args0 b c' e',
  flag_parse_while fuel c0 e0 args0 = Returned b c' e' →
  ∃ c e args, flag_parse_reaches c0 e0 args0 c e args ∧
    (args = [] ∧ b = true ∧ c' = set_rest [] c ∧ e' = e ∨
     ∃ flag rest, args = flag :: rest ∧
       flag_parse_body flag c e rest = Return b c' e').
Proof.
  induction fuel as [|fuel IH]; intros c0 e0 [|flag args0] b c' e' Hw;
    simpl in Hw; try done.
  - inversion Hw; subst. exists c0, e', []. split; [constructor | by left].
  - inversion Hw; subst. exists c0, e', []. split; [constructor | by left].
  - destruct (flag_parse_body flag c0 e0 args0) as [c1 e1 args1|b1 c1 e1] eqn:Hb.
    + apply IH in Hw as (c & e & args & Hr & Hend).
      exists c, e, args. split; [| done]. by eapply reaches_next.
    + inversion Hw; subst. exists c0, e0, (flag :: args0).
      split; [constructor | right; eauto].
Qed.

Lemma flag_parse_ends c0 e0 argv b c' e' :
  flag_parse c0 e0 argv = Returned b c' e' →
  ∃ c e args, flag_parse_arrives c0 e0 argv c e args ∧
    (args = [] ∧ b = true ∧ c' = set_rest [] c ∧ e' = e ∨
     ∃ flag rest, args = flag :: rest ∧
       flag_parse_body flag c e rest = Return b c' e').
Proof.
  destruct argv as [|prog args0]; [done |]. simpl. intros Hw.
  apply flag_parse_while_ends in Hw as (c & e & args & Hr & Hend).
  exists c, e, args. split; [| done]. by exists prog, args0.
Qed.

(** The frame of a pass: a flag whose name the pass did not look up is
    left alone, and every flag keeps its type, name, description and
    default. *)
Lemma flag_parse_updates c0 e0 argv b c' e' :
  flag_parse c0 e0 argv = Returned b c' e' →
  updates (flag_parse_names c0 e0 argv) (flags c0) (flags c').
Proof.
  intros Hp.
  destruct (flag_parse_ends _ _ _ _ _ _ Hp) as (c & e & args & Harr & Hend).
  destruct Harr as (prog & args0 & -> & Hr).
  unfold flag_parse_names. simpl.
  apply flag_parse_reaches_while in Hr as (_ & (pre & -> & U) & _).
  destruct Hend as [(-> & -> & -> & ->) | (flag & rest & -> & Hb)].
  { simpl. by rewrite app_nil_r. }
  pose proof (flag_parse_body_inv flag c e rest) as Hinv. rewrite Hb in Hinv.
  simpl. destruct b.
  - destruct Hinv as (-> & _ & Hc). rewrite app_nil_r.
    by destruct Hc as [-> | ->].
  - destruct Hinv as (-> & U1 & _). rewrite Hb.
    eapply updates_trans; [| | exact U | exact U1].
    + intros x Hx. apply elem_of_app. by left.
    + intros x Hx. apply elem_of_app. by right.
Qed.

(** The registry keeps its names: a declared name is a name of the
    registry at any point of the pass. *)
Lemma updates_names seen fs fs' f' :
  updates seen fs fs' → f' ∈ fs' → ∃ f, f ∈ fs ∧ name f = name f'.
Proof.
  intros U (j & Hj)%list_elem_of_lookup.
  destruct (updates_lookup _ _ _ _ _ U Hj) as (f & Hf & _ & Hn & _).
  exists f. split; [| done]. apply list_elem_of_lookup. eauto.
Qed.

Lemma flag_parse_arrives_names c0 e0 argv c e args nm :
  flag_parse_arrives c0 e0 argv c e args →
  (∀ f, f ∈ flags c0 → name f ≠ nm) →
  ∀ f, f ∈ flags c → name f ≠ nm.
Proof.
  intros (prog & args0 & -> & Hr) Hno f Hf.
  apply flag_parse_reaches_while in Hr as (_ & (pre & _ & U) & _).
  destruct (updates_names _ _ _ _ U Hf) as (f0 & Hf0 & <-). by apply Hno.
Qed.

(** Discharges [∀ f, f ∈ fs → name f ≠ nm] on a concrete registry. *)
Ltac no_flag_named :=
  let f := fresh "f" in
  let Hf := fresh "Hf" in
  intros f Hf; vm_compute in Hf;
  repeat (apply elem_of_cons in Hf as [-> | Hf]; [discriminate |]);
  by apply elem_of_nil in Hf.

(** A dash-prefixed token other than the terminator, of a name that no
    flag of the registry has, ends the loop with the unknown-flag error. *)
Lemma flag_parse_body_unknown flag c errno args :
  deref flag = "-"%char → flag ≠ "--" →
  (∀ f, f ∈ flags c → name f ≠ ptr_add flag 1) →
  flag_parse_body flag c errno args =
  Return false (set_error FLAG_ERROR_UNKNOWN (ptr_add flag 1) c) errno.
Proof.
  intros Hd Ht Hno. unfold flag_parse_body.
  rewrite Hd. simpl negb. cbv iota.
  apply String.eqb_neq in Ht. rewrite Ht.
  rewrite flag_parse_for_no_match; [done |].
  intros j f _ Hj. apply Hno, list_elem_of_lookup. eauto.
Qed.

(** ** The claims *)

(** C1. When the pass arrives at a token that does not start with a dash,
    [flag_parse] returns [true] at once; the leftover arguments
    ([flag_rest_argc], [flag_rest_argv]) are that token and everything
    after it, and the flags are as they were when the token was reached:
    neither that token nor a later one changes a flag. *)
Theorem flag_parse_positional_stops c0 errno0 argv c errno flag rest :
  flag_parse_arrives c0 errno0 argv c errno (flag :: rest) →
  deref flag ≠ "-"%char →
  ∃ c', flag_parse c0 errno0 argv = Returned true c' errno ∧
        flag_rest_argv c' = flag :: rest ∧
        flag_rest_argc c' = Z.of_nat (length (flag :: rest)) ∧
        flags c' = flags c ∧
        flag_error c' = flag_error c ∧ flag_error_name c' = flag_error_name c.
Proof.
  intros Harr Hd. exists (set_rest (flag :: rest) c).
  rewrite (flag_parse_arrives_while _ _ _ _ _ _ Harr). simpl.
  unfold flag_parse_body.
  apply Ascii.eqb_neq in Hd. rewrite Hd. done.
Qed.

Lemma flag_parse_positional_stops_witness :
  ∃ c', flag_parse example_context 0 ["prog"; "-count"; "3"; "foo"; "-verbose"]
          = Returned true c' 0 ∧
        flag_rest_argv c' = ["foo"; "-verbose"] ∧
        flag_rest_argc c' = 2 ∧
        flags c' = flags (assign_val 1 (as_uint64 3) example_context) ∧
        flag_error c' = FLAG_NO_ERROR ∧ flag_error_name c' = None.
Proof.
  apply (flag_parse_positional_stops example_context 0
           ["prog"; "-count"; "3"; "foo"; "-verbose"]
           (assign_val 1 (as_uint64 3) example_context) 0 "foo" ["-verbose"]).
  - exists "prog", ["-count"; "3"; "foo"; "-verbose"]. split; [reflexivity |].
    eapply reaches_next; [vm_compute; reflexivity | apply reaches_here].
  - vm_compute. discriminate.
Defined.

(** C6. When the pass arrives at the token [--], [flag_parse] takes it,
    stops and returns [true]; the leftover arguments are the tokens after
    the terminator, without it, and the flags are as they were when the
    terminator was reached. *)
Theorem flag_parse_terminator_stops c0 errno0 argv c errno rest :
  flag_parse_arrives c0 errno0 argv c errno ("--" :: rest) →
  ∃ c', flag_parse c0 errno0 argv = Returned true c' errno ∧
        flag_rest_argv c' = rest ∧
        flag_rest_argc c' = Z.of_nat (length rest) ∧
        flags c' = flags c ∧
        flag_error c' = flag_error c ∧ flag_error_name c' = flag_error_name c.
Proof.
  intros Harr. exists (set_rest rest c).
  by rewrite (flag_parse_arrives_while _ _ _ _ _ _ Harr).
Qed.

Lemma flag_parse_terminator_stops_witness :
  ∃ c', flag_parse example_context 0 ["prog"; "--"; "-verbose"]
          = Returned true c' 0 ∧
        flag_rest_argv c' = ["-verbose"] ∧
        flag_rest_argc c' = 1 ∧
        flags c' = flags example_context ∧
        flag_error c' = FLAG_NO_ERROR ∧ flag_error_name c' = None.
Proof.
  apply (flag_parse_terminator_stops example_context 0
           ["prog"; "--"; "-verbose"] example_context 0 ["-verbose"]).
  exists "prog", ["--"; "-verbose"]. split; [reflexivity | apply reaches_here].
Defined.

(** C2. When the pass arrives at a token that starts with a dash, is not
    the terminator [--] and whose name (the token without its dash) is the
    name of no declared flag, [flag_parse] records [FLAG_ERROR_UNKNOWN]
    with that name and returns [false] at once: the tokens after it play
    no part, the flags and the leftover arguments stay as they were.  This
    holds for every registry. *)
Theorem flag_parse_unknown_flag c0 errno0 argv c errno flag rest :
  flag_parse_arrives c0 errno0 argv c errno (flag :: rest) →
  deref flag = "-"%char → flag ≠ "--" →
  (∀ f, f ∈ flags c0 → name f ≠ ptr_add flag 1) →
  ∃ c', flag_parse c0 errno0 argv = Returned false c' errno ∧
        flag_error c' = FLAG_ERROR_UNKNOWN ∧
        flag_error_name c' = Some (ptr_add flag 1) ∧
        flags c' = flags c ∧
        rest_argc c' = rest_argc c ∧ rest_argv c' = rest_argv c.
Proof.
  intros Harr Hd Ht Hno.
  exists (set_error FLAG_ERROR_UNKNOWN (ptr_add flag 1) c).
  rewrite (flag_parse_arrives_while _ _ _ _ _ _ Harr). simpl.
  rewrite flag_parse_body_unknown; [done | done | done |].
  by eapply flag_parse_arrives_names.
Qed.

Lemma flag_parse_unknown_flag_witness :
  ∃ c', flag_parse example_context 0 ["prog"; "-verbose"; "-unknown"; "-count"; "x"]
          = Returned false c' 0 ∧
        flag_error c' = FLAG_ERROR_UNKNOWN ∧
        flag_error_name c' = Some "unknown" ∧
        flags c' = flags (assign_val 0 (as_bool true) example_context) ∧
        rest_argc c' = 0 ∧ rest_argv c' = [].
Proof.
  apply (flag_parse_unknown_flag example_context 0
           ["prog"; "-verbose"; "-unknown"; "-count"; "x"]
           (assign_val 0 (as_bool true) example_context) 0
           "-unknown" ["-count"; "x"]).
  - exists "prog", ["-verbose"; "-unknown"; "-count"; "x"].
    split; [reflexivity |].
    eapply reaches_next; [vm_compute; reflexivity | apply reaches_here].
  - reflexivity.
  - discriminate.
  - no_flag_named.
Defined.

(** C10. A token that is a single dash is looked up as the flag of the
    empty name: when no flag was declared with the empty name,
    [flag_parse] returns [false] with [FLAG_ERROR_UNKNOWN] and the empty
    string.  The dash is not kept as a leftover argument and it does not
    end the pass with success. *)
Theorem flag_parse_bare_dash c0 errno0 argv c errno rest :
  flag_parse_arrives c0 errno0 argv c errno ("-" :: rest) →
  (∀ f, f ∈ flags c0 → name f ≠ "") →
  ∃ c', flag_parse c0 errno0 argv = Returned false c' errno ∧
        flag_error c' = FLAG_ERROR_UNKNOWN ∧
        flag_error_name c' = Some "" ∧
        flags c' = flags c ∧
        rest_argc c' = rest_argc c ∧ rest_argv c' = rest_argv c.
Proof.
  intros Harr Hno.
  exists (set_error FLAG_ERROR_UNKNOWN "" c).
  rewrite (flag_parse_arrives_while _ _ _ _ _ _ Harr). simpl.
  rewrite flag_parse_body_unknown; [done | done | done |].
  by eapply flag_parse_arrives_names.
Qed.

Lemma flag_parse_bare_dash_witness :
  ∃ c', flag_parse example_context 0 ["prog"; "-"; "file"]
          = Returned false c' 0 ∧
        flag_error c' = FLAG_ERROR_UNKNOWN ∧
        flag_error_name c' = Some "" ∧
        flags c' = flags example_context ∧
        rest_argc c' = 0 ∧ rest_argv c' = [].
Proof.
  apply (flag_parse_bare_dash example_context 0 ["prog"; "-"; "file"]
           example_context 0 ["file"]).
  - exists "prog", ["-"; "file"]. split; [reflexivity | apply reaches_here].
  - no_flag_named.
Defined.

(** A declaration appends one flag, current value and default both the
    declared default, and returns its index. *)
Lemma declare_appends d c h c1 :
  declare d c = Some (h, c1) →
  ∃ t ds, h = flags_count c ∧
    flags c1 = flags c ++
      [mkFlag t (declared_name d) ds (declared_default d) (declared_default d)].
Proof.
  assert (Halt : ∀ (fs : list Flag) f0 g,
            alter g (length fs) (fs ++ [f0]) = fs ++ [g f0]).
  { intros fs f0 g. rewrite alter_app_r_alt by lia.
    by rewrite Nat.sub_diag. }
  destruct d as [nm d ds|nm d ds|nm d ds]; simpl;
    unfold flag_bool, flag_uint64, flag_str, flag_new, flags_count;
    case_decide; try done; intros [= <- <-]; eexists _, ds;
    (split; [done |]); simpl; rewrite !Halt; done.
Qed.

Lemma declares_prefix c c' : declares c c' → flags c `prefix_of` flags c'.
Proof.
  induction 1 as [c|d c h c1 c2 Hd _ IH]; [done |].
  apply declare_appends in Hd as (t & ds & _ & Hfs).
  etrans; [| exact IH]. rewrite Hfs. by apply prefix_app_r.
Qed.

(** C9. A flag is declared (by [flag_bool], [flag_uint64] or [flag_str]),
    more flags are declared, then the arguments are parsed.  If the name
    of the flag is not among the names that the pass looks up (the
    dash-prefixed tokens it takes as flags), then, however the pass ends,
    the current value of the flag is the default given at its
    declaration. *)
Theorem flag_parse_keeps_default d c0 h c1 c errno argv b c' errno' :
  declare d c0 = Some (h, c1) →
  declares c1 c →
  flag_parse c errno argv = Returned b c' errno' →
  declared_name d ∉ flag_parse_names c errno argv →
  ∃ f, flags c' !! h = Some f ∧ name f = declared_name d ∧
       val f = declared_default d ∧ def f = declared_default d.
Proof.
  intros Hd Hmore Hp Hnot.
  apply declare_appends in Hd as (t & ds & -> & Hfs).
  apply declares_prefix in Hmore.
  exists (mkFlag t (declared_name d) ds (declared_default d) (declared_default d)).
  split; [| done].
  eapply updates_unseen; [by eapply flag_parse_updates | | done].
  eapply prefix_lookup_Some; [| exact Hmore].
  rewrite Hfs. unfold flags_count.
  rewrite lookup_app_r by lia. by rewrite Nat.sub_diag.
Qed.

Lemma flag_parse_keeps_default_witness :
  ∃ f, flags (set_rest ["file"]
                (assign_val 2 (as_str (Some "-count"))
                   (assign_val 0 (as_bool true) example_context))) !! 1%nat
         = Some f ∧
       name f = "count" ∧ val f = as_uint64 7 ∧ def f = as_uint64 7.
Proof.
  eapply (flag_parse_keeps_default (declare_uint64 "count" 7 "how many")
           (assign_val 0 (as_bool false)
              (assign_def 0 (as_bool false)
                 (set_flags [mkFlag FLAG_BOOL "verbose" "more output"
                               (as_bool false) (as_bool false)]
                    flag_global_context)))
           1 _ example_context 0
           ["prog"; "-verbose"; "-out"; "-count"; "file"] true _ 0).
  - reflexivity.
  - eapply declares_more with (d := declare_str "out" None "where to");
      [reflexivity | apply declares_none].
  - reflexivity.
  - vm_compute. intros Hin.
    repeat (apply elem_of_cons in Hin as [[=] | Hin]).
    by apply elem_of_nil in Hin.
Defined.

(** C4, as the specification states it, fails: a pass that returns [true]
    after a failed one leaves the error of the failed pass in the error
    slot, and [flag_print_error] reports it. *)
Lemma flag_parse_success_keeps_stale_error :
  flag_parse example_context 0 ["prog"; "-unknown"] =
    Returned false (set_error FLAG_ERROR_UNKNOWN "unknown" example_context) 0 ∧
  ∃ c2,
    flag_parse (set_error FLAG_ERROR_UNKNOWN "unknown" example_context) 0
               ["prog"; "-verbose"; "file"] = Returned true c2 0 ∧
    flag_error c2 = FLAG_ERROR_UNKNOWN ∧
    flag_error c2 ≠ FLAG_NO_ERROR ∧
    flag_print_error c2 = ("ERROR: -unknown: unknown flag" ++ newline)%string.
Proof.
  split; [reflexivity |]. eexists. split; [reflexivity |].
  split; [reflexivity |]. split; [discriminate | reflexivity].
Qed.

(** C4, amended.  A pass that returns [true] does not write the error
    slot: the error kind and name after it are those before it, and
    [flag_print_error] prints what it would have printed before.  So the
    slot holds no error after a successful pass exactly when it held none
    before it. *)
Theorem flag_parse_success_error_slot c errno argv c' errno' :
  flag_parse c errno argv = Returned true c' errno' →
  flag_error c' = flag_error c ∧
  flag_error_name c' = flag_error_name c ∧
  flag_print_error c' = flag_print_error c ∧
  (flag_error c' = FLAG_NO_ERROR ↔ flag_error c = FLAG_NO_ERROR).
Proof.
  intros Hp.
  destruct (flag_parse_ends _ _ _ _ _ _ Hp) as (c1 & e1 & args & Harr & Hend).
  destruct Harr as (prog & args0 & -> & Hr).
  apply flag_parse_reaches_while in Hr as (_ & _ & He & Hn & _).
  assert (Hslot : flag_error c' = flag_error c1 ∧
                  flag_error_name c' = flag_error_name c1).
  { destruct Hend as [(-> & _ & -> & ->) | (flag & rest & -> & Hb)]; [done |].
    pose proof (flag_parse_body_inv flag c1 e1 rest) as Hinv.
    rewrite Hb in Hinv. by destruct Hinv as (_ & _ & [-> | ->]). }
  destruct Hslot as (He' & Hn').
  assert (E : flag_error c' = flag_error c) by congruence.
  assert (N : flag_error_name c' = flag_error_name c) by congruence.
  split; [done |]. split; [done |].
  split; [unfold flag_print_error; by rewrite E, N | by rewrite E].
Qed.

Lemma flag_parse_success_error_slot_witness :
  let c := set_error FLAG_ERROR_NO_VALUE "out" example_context in
  let c' := set_rest ["file"] (assign_val 0 (as_bool true) c) in
  flag_error c' = flag_error c ∧
  flag_error_name c' = flag_error_name c ∧
  flag_print_error c' = flag_print_error c ∧
  (flag_error c' = FLAG_NO_ERROR ↔ flag_error c = FLAG_NO_ERROR).
Proof.
  intros c c'.
  apply (flag_parse_success_error_slot c 0 ["prog"; "-verbose"; "file"] c' 0).
  reflexivity.
Defined.

(** A [for] loop that ends with [found] false has matched no flag. *)
Lemma flag_parse_for_not_found n : ∀ i flag found c errno args c1 errno1 args1,
  flag_parse_for n i flag found c errno args = (false, Continue c1 errno1 args1) →
  c1 = c ∧ errno1 = errno ∧ args1 = args.
Proof.
  induction n as [|n IH]; intros i flag found c errno args c1 errno1 args1 Hfor;
    simpl in Hfor; [by inversion Hfor |].
  destruct (flags c !! i) as [f|]; [| by inversion Hfor].
  assert (Hno : ∀ c2 e2 args2,
    flag_parse_for n (S i) flag true c2 e2 args2
    ≠ (false, Continue c1 errno1 args1)).
  { intros c2 e2 args2 Hrec.
    apply flag_parse_for_inv in Hrec as (_ & _ & _ & _ & _ & _ & _ & Hf).
    by specialize (Hf eq_refl). }
  destruct (String.eqb (name f) flag); [| by eapply IH].
  destruct (type f).
  - by apply Hno in Hfor.
  - destruct args as [|arg args']; [done |].
    destruct (flag_parse_uint64 i flag arg c errno) as [[c2 e2]|[c2 e2]];
      [by apply Hno in Hfor | done].
  - destruct args as [|arg args']; [done |]. by apply Hno in Hfor.
Qed.

Lemma flag_parse_reaches_snoc c0 e0 args0 c e flag rest c1 e1 args1 :
  flag_parse_reaches c0 e0 args0 c e (flag :: rest) →
  flag_parse_body flag c e rest = Continue c1 e1 args1 →
  flag_parse_reaches c0 e0 args0 c1 e1 args1.
Proof.
  intros Hr Hb. remember (flag :: rest) as args eqn:Hargs.
  induction Hr as [c e args|? ? ? ? ? ? ? ? ? ? Hb0 Hr IH]; subst.
  - eapply reaches_next; [exact Hb | constructor].
  - eapply reaches_next; [exact Hb0 | by apply IH].
Qed.

Lemma flag_parse_arrives_next c0 e0 argv c e flag rest c1 e1 args1 :
  flag_parse_arrives c0 e0 argv c e (flag :: rest) →
  flag_parse_body flag c e rest = Continue c1 e1 args1 →
  flag_parse_arrives c0 e0 argv c1 e1 args1.
Proof.
  intros (prog & args0 & -> & Hr) Hb. exists prog, args0.
  split; [done |]. by eapply flag_parse_reaches_snoc.
Qed.

(** The body of the [while] loop, entered at the first flag of the
    looked-up name. *)
Lemma flag_parse_body_first flag c errno rest i f :
  deref flag = "-"%char → flag ≠ "--" →
  flags c !! i = Some f →
  (∀ j g, (j < i)%nat → flags c !! j = Some g → name g ≠ ptr_add flag 1) →
  flag_parse_body flag c errno rest =
  after_for (ptr_add flag 1)
    (flag_parse_for (S (flags_count c - S i)) i (ptr_add flag 1) false c errno rest).
Proof.
  intros Hd Ht Hi Hno. unfold flag_parse_body.
  rewrite Hd. simpl negb. cbv iota.
  apply String.eqb_neq in Ht. rewrite Ht.
  by rewrite (flag_parse_for_first i f).
Qed.

(** Once flag [i] is assigned, the rest of the loop leaves it alone; it
    changes nothing when no later flag has the looked-up name. *)
Lemma after_for_assigned n i nm c1 e1 args1 :
  let st := after_for nm (flag_parse_for n (S i) nm true c1 e1 args1) in
  flags (step_ctx st) !! i = flags c1 !! i ∧
  ((∀ j g, (i < j)%nat → flags c1 !! j = Some g → name g ≠ nm) →
   st = Continue c1 e1 args1).
Proof.
  simpl. split.
  - destruct (flag_parse_for n (S i) nm true c1 e1 args1) as [found st] eqn:Hfor.
    apply flag_parse_for_inv in Hfor as (_ & Hlt & _ & _ & Hst).
    destruct st as [c' e' args'|b c' e']; simpl in *; [| apply Hlt; lia].
    destruct Hst as (_ & _ & _ & Hf). rewrite Hf by done. simpl.
    apply Hlt. lia.
  - intros Hno. rewrite flag_parse_for_no_match; [done |].
    intros j g Hj. apply Hno. lia.
Qed.

(** One iteration of the [for] loop at a flag of the looked-up name, by
    the type of the flag. *)
Lemma flag_parse_for_bool n i nm found c errno args f :
  flags c !! i = Some f → name f = nm → type f = FLAG_BOOL →
  flag_parse_for (S n) i nm found c errno args =
  flag_parse_for n (S i) nm true (assign_val i (as_bool true) c) errno args.
Proof.
  intros Hi Hn Ht. simpl. rewrite Hi.
  apply String.eqb_eq in Hn. by rewrite Hn, Ht.
Qed.

Lemma flag_parse_for_string n i nm found c errno args f :
  flags c !! i = Some f → name f = nm → type f = FLAG_STR →
  flag_parse_for (S n) i nm found c errno args =
  match args with
  | [] => (found, Return false (set_error FLAG_ERROR_NO_VALUE nm c) errno)
  | arg :: args' =>
      flag_parse_for n (S i) nm true (assign_val i (as_str (Some arg)) c) errno args'
  end.
Proof.
  intros Hi Hn Ht. simpl. rewrite Hi.
  apply String.eqb_eq in Hn. by rewrite Hn, Ht.
Qed.

Lemma flag_parse_for_uint64 n i nm found c errno args f :
  flags c !! i = Some f → name f = nm → type f = FLAG_UINT64 →
  flag_parse_for (S n) i nm found c errno args =
  match args with
  | [] => (found, Return false (set_error FLAG_ERROR_NO_VALUE nm c) errno)
  | arg :: args' =>
      match flag_parse_uint64 i nm arg c errno with
      | inr (c', errno') => (found, Return false c' errno')
      | inl (c', errno') => flag_parse_for n (S i) nm true c' errno' args'
      end
  end.
Proof.
  intros Hi Hn Ht. simpl. rewrite Hi.
  apply String.eqb_eq in Hn. by rewrite Hn, Ht.
Qed.

Lemma assign_val_lookup i v c f :
  flags c !! i = Some f → flags (assign_val i v c) !! i = Some (set_val v f).
Proof. intros Hi. simpl. by rewrite list_lookup_alter_eq, Hi. Qed.

Lemma assign_val_lookup_ne i j v c :
  i ≠ j → flags (assign_val i v c) !! j = flags c !! j.
Proof. intros Hne. simpl. by rewrite list_lookup_alter_ne. Qed.

(** ** [strtoull] converts the numerals, and nothing else, in full *)

#[local] Arguments String.append : simpl nomatch.

Lemma string_length_app (a b : string) :
  String.length (a ++ b) = (String.length a + String.length b)%nat.
Proof. induction a as [|ch a IH]; simpl; [done | by rewrite IH]. Qed.

Lemma string_app_assoc (a b c : string) :
  ((a ++ b) ++ c = a ++ (b ++ c))%string.
Proof. induction a as [|ch a IH]; simpl; [done | by rewrite IH]. Qed.

Lemma string_app_nil_r (a : string) : (a ++ "")%string = a.
Proof. induction a as [|ch a IH]; simpl; [done | by rewrite IH]. Qed.

Lemma ptr_add_app (a b : string) : ptr_add (a ++ b) (String.length a) = b.
Proof. induction a as [|ch a IH]; simpl; [by destruct b | done]. Qed.

Lemma isdigit_not_space ch : isdigit ch = true → isspace ch = false.
Proof.
  destruct ch as [[] [] [] [] [] [] [] []]; vm_compute; congruence.
Qed.

Lemma isdigit_not_sign ch :
  isdigit ch = true → Ascii.eqb ch "-" = false ∧ Ascii.eqb ch "+" = false.
Proof.
  destruct ch as [[] [] [] [] [] [] [] []]; vm_compute; intuition congruence.
Qed.

Lemma skip_spaces_app ws r :
  all_chars isspace ws = true → isspace (deref r) = false →
  skip_spaces (ws ++ r) = (String.length ws, r).
Proof.
  intros Hws Hr. induction ws as [|ch ws IH]; simpl in *.
  - destruct r as [|ch r]; [done |]. simpl in *. by rewrite Hr.
  - apply andb_true_iff in Hws as [-> Hws]. by rewrite IH.
Qed.

Lemma skip_spaces_spec s :
  ∃ ws, s = (ws ++ snd (skip_spaces s))%string ∧
        all_chars isspace ws = true ∧
        fst (skip_spaces s) = String.length ws.
Proof.
  induction s as [|ch s (ws & Hs & Hws & Hn)]; simpl.
  - by exists "".
  - destruct (isspace ch) eqn:Hch; [| by exists ""].
    destruct (skip_spaces s) as [n r]. simpl in *.
    exists (String ch ws). simpl. rewrite Hch, Hws, <- Hs, Hn. done.
Qed.

Lemma scan_sign_spec s :
  ∃ sg, s = (sg ++ snd (scan_sign s))%string ∧
        snd (fst (scan_sign s)) = String.length sg ∧
        (sg = "" ∧ fst (fst (scan_sign s)) = false ∨
         sg = "+" ∧ fst (fst (scan_sign s)) = false ∨
         sg = "-" ∧ fst (fst (scan_sign s)) = true).
Proof.
  destruct s as [|ch s]; simpl; [exists ""; simpl; auto |].
  destruct (Ascii.eqb ch "-") eqn:Hm.
  { apply Ascii.eqb_eq in Hm as ->. exists "-". simpl. auto 6. }
  destruct (Ascii.eqb ch "+") eqn:Hp.
  { apply Ascii.eqb_eq in Hp as ->. exists "+". simpl. auto 6. }
  exists "". simpl. auto.
Qed.

Lemma scan_digits_spec s : ∀ acc,
  ∃ ds, s = (ds ++ snd (scan_digits acc s))%string ∧
        all_chars isdigit ds = true ∧
        snd (fst (scan_digits acc s)) = String.length ds ∧
        fst (fst (scan_digits acc s)) = decimal_from acc ds.
Proof.
  induction s as [|ch s IH]; intros acc; simpl.
  - by exists "".
  - destruct (isdigit ch) eqn:Hch; [| by exists ""].
    destruct (IH (acc * 10 + digit_value ch)) as (ds & Hs & Hds & Hn & Hv).
    destruct (scan_digits (acc * 10 + digit_value ch) s) as [[v n] r].
    simpl in *. exists (String ch ds). simpl.
    rewrite Hch, Hds, <- Hs, Hn, Hv. done.
Qed.

Lemma scan_digits_all ds : ∀ acc,
  all_chars isdigit ds = true →
  scan_digits acc ds = (decimal_from acc ds, String.length ds, "").
Proof.
  induction ds as [|ch ds IH]; intros acc Hds; simpl in *; [done |].
  apply andb_true_iff in Hds as [-> Hds]. by rewrite IH.
Qed.

(** On a numeral [strtoull] reads the whole token. *)
Lemma strtoull_numeral tok neg v errno :
  numeral tok neg v →
  strtoull tok errno =
    (if ULLONG_MAX <? v then (ULLONG_MAX, String.length tok, ERANGE)
     else (numeral_result neg v, String.length tok, errno)) ∧
  String.length tok ≠ O ∧
  ptr_add tok (String.length tok) = "".
Proof.
  intros (ws & sg & ds & -> & Hws & Hsg & Hne & Hds & ->).
  destruct ds as [|d ds]; [done |]. clear Hne.
  pose proof Hds as Hd. simpl in Hd. apply andb_true_iff in Hd as [Hd _].
  destruct (isdigit_not_sign d Hd) as [Hm Hp].
  assert (Hsign : scan_sign (sg ++ String d ds) =
                  (neg, String.length sg, String d ds)).
  { destruct Hsg as [(-> & ->) | [(-> & ->) | (-> & ->)]]; simpl; [| done | done].
    by rewrite Hm, Hp. }
  assert (Hsp : isspace (deref (sg ++ String d ds)) = false).
  { destruct Hsg as [(-> & ->) | [(-> & ->) | (-> & ->)]]; simpl; [| done | done].
    by apply isdigit_not_space. }
  unfold strtoull. rewrite (skip_spaces_app _ _ Hws Hsp), Hsign.
  rewrite (scan_digits_all _ _ Hds).
  rewrite !string_length_app.
  split; [| split].
  - simpl String.length. simpl Nat.eqb. unfold decimal_value, numeral_result.
    rewrite !Nat.add_assoc. done.
  - simpl. lia.
  - rewrite <- !string_length_app, <- (string_app_nil_r (ws ++ sg ++ String d ds)) at 1.
    apply ptr_add_app.
Qed.

(** A token that [strtoull] reads to its end, with a conversion, is a
    numeral. *)
Lemma strtoull_accepts tok errno :
  snd (fst (strtoull tok errno)) ≠ O →
  at_nul (ptr_add tok (snd (fst (strtoull tok errno)))) = true →
  ∃ neg v, numeral tok neg v.
Proof.
  unfold strtoull.
  destruct (skip_spaces_spec tok) as (ws & Htok & Hws & Hnsp).
  destruct (skip_spaces tok) as [nsp s1]. simpl in *.
  destruct (scan_sign_spec s1) as (sg & Hs1 & Hnsg & Hsg).
  destruct (scan_sign s1) as [[neg nsg] s2]. simpl in *.
  destruct (scan_digits_spec s2 0) as (ds & Hs2 & Hds & Hnd & Hv).
  destruct (scan_digits 0 s2) as [[v nd] s3]. simpl in *.
  assert (Hoff : nd ≠ O →
    at_nul (ptr_add tok (nsp + nsg + nd)) = true → ∃ neg v, numeral tok neg v).
  { intros Hnd0 Hnul.
    assert (Hend : ptr_add tok (nsp + nsg + nd) = s3).
    { rewrite Htok, Hs1, Hs2 at 1. rewrite Hnsp, Hnsg, Hnd.
      rewrite <- !string_length_app, <- !string_app_assoc.
      apply ptr_add_app. }
    rewrite Hend in Hnul. destruct s3; [| done].
    rewrite string_app_nil_r in Hs2. subst s2 s1.
    exists neg, v, ws, sg, ds. repeat split; try done.
    intros ->. simpl in Hnd. lia. }
  destruct (nd =? 0)%nat eqn:Hz; [done |].
  apply Nat.eqb_neq in Hz.
  destruct (ULLONG_MAX <? v); simpl; intros _; by apply Hoff.
Qed.

Lemma all_digits_numeral tok :
  all_digits tok = true → numeral tok false (decimal_value tok).
Proof.
  unfold all_digits. intros [Hne Hds]%andb_true_iff.
  exists "", "", tok. simpl. repeat split; auto.
  intros ->. done.
Qed.

(** The integer case, by what the argument is. *)
Lemma flag_parse_uint64_invalid i flag arg c errno :
  (∀ neg v, ¬ numeral arg neg v) →
  ∃ errno', flag_parse_uint64 i flag arg c errno =
            inr (set_error FLAG_ERROR_INVALID_NUMBER flag c, errno').
Proof.
  intros Hno. unfold flag_parse_uint64.
  pose proof (strtoull_accepts arg errno) as Hacc.
  destruct (strtoull arg errno) as [[result endptr] errno']. simpl in Hacc.
  destruct (endptr =? 0)%nat eqn:Hz; simpl; [by eexists |].
  destruct (at_nul (ptr_add arg endptr)) eqn:Hnul; simpl; [| by eexists].
  apply Nat.eqb_neq in Hz.
  destruct (Hacc Hz eq_refl) as (neg & v & Hnum). by destruct (Hno neg v).
Qed.

Lemma flag_parse_uint64_overflow i flag arg c errno neg v :
  numeral arg neg v → ULLONG_MAX < v →
  flag_parse_uint64 i flag arg c errno =
  inr (set_error FLAG_ERROR_INTEGER_OVERFLOW flag c, ERANGE).
Proof.
  intros Hnum Hv. unfold flag_parse_uint64.
  destruct (strtoull_numeral arg neg v errno Hnum) as (-> & Hlen & Hend).
  apply Z.ltb_lt in Hv. rewrite Hv, Hend.
  apply Nat.eqb_neq in Hlen. rewrite Hlen. done.
Qed.

Lemma flag_parse_uint64_stored i flag arg c errno neg v :
  numeral arg neg v → v ≤ ULLONG_MAX →
  errno ≠ ERANGE ∨ numeral_result neg v ≠ ULLONG_MAX →
  flag_parse_uint64 i flag arg c errno =
  inl (assign_val i (as_uint64 (numeral_result neg v)) c, errno).
Proof.
  intros Hnum Hv Hstale. unfold flag_parse_uint64.
  destruct (strtoull_numeral arg neg v errno Hnum) as (-> & Hlen & Hend).
  apply Z.ltb_ge in Hv. rewrite Hv, Hend.
  apply Nat.eqb_neq in Hlen. rewrite Hlen. simpl.
  destruct Hstale as [He | Hr].
  - apply Z.eqb_neq in He. rewrite He. by rewrite andb_false_r.
  - apply Z.eqb_neq in Hr. by rewrite Hr.
Qed.

(** C5, as the specification states it, fails: tokens that are not made
    of digits only are taken as numbers.  [strtoull] accepts a sign and
    leading white space, and negates in the unsigned type after a minus
    sign. *)
Lemma flag_parse_uint64_takes_signs_and_spaces :
  (all_digits "+7" = false ∧
   flag_parse example_context 0 ["prog"; "-count"; "+7"] =
     Returned true (set_rest [] (assign_val 1 (as_uint64 7) example_context)) 0) ∧
  (all_digits "-1" = false ∧
   flag_parse example_context 0 ["prog"; "-count"; "-1"] =
     Returned true
       (set_rest [] (assign_val 1 (as_uint64 18446744073709551615) example_context))
       0) ∧
  (all_digits " 42" = false ∧
   flag_parse example_context 0 ["prog"; "-count"; " 42"] =
     Returned true (set_rest [] (assign_val 1 (as_uint64 42) example_context)) 0).
Proof. repeat split; vm_compute; reflexivity. Qed.

(** C5, amended.  The pass arrives at a flag token whose name is the name
    of an integer flag, the first flag of that name in the registry.
    If no token follows, [flag_parse] returns [false] with
    [FLAG_ERROR_NO_VALUE] and the name of the flag.  Otherwise the token
    that follows is read in base 10 and in full: it is taken when it is
    a numeral (white space or none, then a sign [+] or [-] or none, then
    one or more digits, up to the end of the token).
    - A token that is not a numeral (the empty token, a token with a
      character after its digits) gives [false] with
      [FLAG_ERROR_INVALID_NUMBER].
    - A numeral whose digits exceed [ULLONG_MAX] gives [false] with
      [FLAG_ERROR_INTEGER_OVERFLOW].
    - Any other numeral is stored as the current value of the flag, its
      value negated modulo [2^64] after a minus sign; this is stated for
      the case that [errno] is not [ERANGE] on entry or the result is not
      [ULLONG_MAX]. *)
Theorem flag_parse_uint64_flag c0 errno0 argv c errno flag rest i f :
  flag_parse_arrives c0 errno0 argv c errno (flag :: rest) →
  deref flag = "-"%char → flag ≠ "--" →
  flags c !! i = Some f → name f = ptr_add flag 1 → type f = FLAG_UINT64 →
  (∀ j g, (j < i)%nat → flags c !! j = Some g → name g ≠ name f) →
  (rest = [] →
     flag_parse c0 errno0 argv =
     Returned false (set_error FLAG_ERROR_NO_VALUE (name f) c) errno) ∧
  (∀ arg rest', rest = arg :: rest' →
     ((∀ neg v, ¬ numeral arg neg v) →
      ∃ errno', flag_parse c0 errno0 argv =
        Returned false (set_error FLAG_ERROR_INVALID_NUMBER (name f) c) errno') ∧
     (∀ neg v, numeral arg neg v → ULLONG_MAX < v →
      flag_parse c0 errno0 argv =
        Returned false (set_error FLAG_ERROR_INTEGER_OVERFLOW (name f) c) ERANGE) ∧
     (∀ neg v, numeral arg neg v → v ≤ ULLONG_MAX →
      errno ≠ ERANGE ∨ numeral_result neg v ≠ ULLONG_MAX →
      flags (step_ctx (flag_parse_body flag c errno rest)) !! i =
        Some (set_val (as_uint64 (numeral_result neg v)) f) ∧
      ((∀ j g, (i < j)%nat → flags c !! j = Some g → name g ≠ name f) →
       flag_parse_body flag c errno rest =
         Continue (assign_val i (as_uint64 (numeral_result neg v)) c) errno rest' ∧
       flag_parse_arrives c0 errno0 argv
         (assign_val i (as_uint64 (numeral_result neg v)) c) errno rest'))).
Proof.
  intros Harr Hd Ht Hi Hn Hty Hfirst. rewrite Hn in *.
  pose proof (flag_parse_body_first flag c errno rest i f Hd Ht Hi Hfirst) as Hb.
  rewrite (flag_parse_for_uint64 _ _ _ _ _ _ _ f Hi Hn Hty) in Hb.
  pose proof (flag_parse_arrives_while _ _ _ _ _ _ Harr) as Hw.
  simpl in Hw. rewrite Hb in Hw.
  split; [by intros -> |].
  intros arg rest' ->. split; [| split].
  - intros Hno.
    destruct (flag_parse_uint64_invalid i (ptr_add flag 1) arg c errno Hno)
      as (e' & Hu).
    rewrite Hu in Hw. by exists e'.
  - intros neg v Hnum Hv.
    by rewrite (flag_parse_uint64_overflow _ _ _ _ _ neg v Hnum Hv) in Hw.
  - intros neg v Hnum Hv Hstale.
    rewrite (flag_parse_uint64_stored _ _ _ _ _ neg v Hnum Hv Hstale) in Hb.
    rewrite Hb.
    destruct (after_for_assigned (flags_count c - S i) i (ptr_add flag 1)
                (assign_val i (as_uint64 (numeral_result neg v)) c) errno rest')
      as (Hval & Hcont).
    split; [by rewrite Hval, (assign_val_lookup _ _ _ f) |].
    intros Hlater.
    assert (Hst : after_for (ptr_add flag 1)
              (flag_parse_for (flags_count c - S i) (S i) (ptr_add flag 1) true
                 (assign_val i (as_uint64 (numeral_result neg v)) c) errno rest')
            = Continue (assign_val i (as_uint64 (numeral_result neg v)) c)
                errno rest').
    { apply Hcont. intros j g Hj Hg.
      rewrite assign_val_lookup_ne in Hg by lia. by eapply Hlater. }
    split; [done |].
    eapply flag_parse_arrives_next; [exact Harr |]. by rewrite Hb.
Qed.

Lemma flag_parse_uint64_flag_witness :
  let argv := ["prog"; "-verbose"; "-count"; "42"; "x"] in
  let c := assign_val 0 (as_bool true) example_context in
  let f := mkFlag FLAG_UINT64 "count" "how many" (as_uint64 7) (as_uint64 7) in
  (["42"; "x"] = [] →
     flag_parse example_context 0 argv =
     Returned false (set_error FLAG_ERROR_NO_VALUE "count" c) 0) ∧
  (∀ arg rest', ["42"; "x"] = arg :: rest' →
     ((∀ neg v, ¬ numeral arg neg v) →
      ∃ errno', flag_parse example_context 0 argv =
        Returned false (set_error FLAG_ERROR_INVALID_NUMBER "count" c) errno') ∧
     (∀ neg v, numeral arg neg v → ULLONG_MAX < v →
      flag_parse example_context 0 argv =
        Returned false (set_error FLAG_ERROR_INTEGER_OVERFLOW "count" c) ERANGE) ∧
     (∀ neg v, numeral arg neg v → v ≤ ULLONG_MAX →
      0 ≠ ERANGE ∨ numeral_result neg v ≠ ULLONG_MAX →
      flags (step_ctx (flag_parse_body "-count" c 0 ["42"; "x"])) !! 1%nat =
        Some (set_val (as_uint64 (numeral_result neg v)) f) ∧
      ((∀ j g, (1 < j)%nat → flags c !! j = Some g → name g ≠ "count") →
       flag_parse_body "-count" c 0 ["42"; "x"] =
         Continue (assign_val 1 (as_uint64 (numeral_result neg v)) c) 0 rest' ∧
       flag_parse_arrives example_context 0 argv
         (assign_val 1 (as_uint64 (numeral_result neg v)) c) 0 rest'))).
Proof.
  intros argv c f.
  apply (flag_parse_uint64_flag example_context 0 argv c 0 "-count"
           ["42"; "x"] 1 f).
  - exists "prog", ["-verbose"; "-count"; "42"; "x"].
    split; [reflexivity |].
    eapply reaches_next; [vm_compute; reflexivity | apply reaches_here].
  - reflexivity.
  - discriminate.
  - reflexivity.
  - reflexivity.
  - reflexivity.
  - intros [|j] g Hj Hg; [| lia]. vm_compute in Hg.
    injection Hg as <-. discriminate.
Defined.

(** The number examples of the specification, and the value kept by the
    flag when a numeral is stored. *)
Example flag_parse_count_42 :
  flag_parse example_context 0 ["prog"; "-count"; "42"] =
  Returned true (set_rest [] (assign_val 1 (as_uint64 42) example_context)) 0.
Proof. reflexivity. Qed.

Example flag_parse_count_abc :
  flag_parse example_context 0 ["prog"; "-count"; "abc"] =
  Returned false (set_error FLAG_ERROR_INVALID_NUMBER "count" example_context) 0.
Proof. reflexivity. Qed.

Example flag_parse_count_overflow :
  flag_parse example_context 0 ["prog"; "-count"; "99999999999999999999"] =
  Returned false (set_error FLAG_ERROR_INTEGER_OVERFLOW "count" example_context)
           ERANGE.
Proof. reflexivity. Qed.

(** [errno] is not cleared before [strtoull]: with [ERANGE] left in it,
    the largest value is reported as an overflow. *)
Example flag_parse_count_max_stale_errno :
  flag_parse example_context ERANGE ["prog"; "-count"; "18446744073709551615"] =
  Returned false (set_error FLAG_ERROR_INTEGER_OVERFLOW "count" example_context)
           ERANGE.
Proof. reflexivity. Qed.

(** ** Names declared twice *)

(** Whether a token is a numeral is decided by running [strtoull]. *)
Lemma classic_numeral tok :
  (∃ neg v, numeral tok neg v) ∨ (∀ neg v, ¬ numeral tok neg v).
Proof.
  pose proof (strtoull_accepts tok 0) as Hacc.
  destruct (decide (snd (fst (strtoull tok 0)) = O)) as [Hz | Hz].
  { right. intros neg v Hnum.
    destruct (strtoull_numeral tok neg v 0 Hnum) as (Hs & Hlen & _).
    rewrite Hs in Hz. by destruct (ULLONG_MAX <? v). }
  destruct (at_nul (ptr_add tok (snd (fst (strtoull tok 0))))) eqn:Hnul.
  { left. by apply Hacc. }
  right. intros neg v Hnum.
  destruct (strtoull_numeral tok neg v 0 Hnum) as (Hs & _ & Hend).
  rewrite Hs in Hnul.
  destruct (ULLONG_MAX <? v); simpl in Hnul; by rewrite Hend in Hnul.
Qed.

(** A value stored by the integer case is the value of a numeral. *)
Lemma flag_parse_uint64_stores i flag arg c errno c' errno' :
  flag_parse_uint64 i flag arg c errno = inl (c', errno') →
  ∃ neg v, numeral arg neg v ∧
           c' = assign_val i (as_uint64 (numeral_result neg v)) c.
Proof.
  intros Hu.
  destruct (classic_numeral arg) as [(neg & v & Hnum) | Hno].
  2:{ destruct (flag_parse_uint64_invalid i flag arg c errno Hno) as (e' & He).
      by rewrite He in Hu. }
  exists neg, v. split; [done |].
  unfold flag_parse_uint64 in Hu.
  destruct (strtoull_numeral arg neg v errno Hnum) as (Hs & Hlen & Hend).
  rewrite Hs in Hu. destruct (ULLONG_MAX <? v).
  - rewrite Hend in Hu. apply Nat.eqb_neq in Hlen. rewrite Hlen in Hu.
    by simpl in Hu.
  - rewrite Hend in Hu. apply Nat.eqb_neq in Hlen. rewrite Hlen in Hu.
    simpl in Hu. destruct (_ && _); by inversion Hu.
Qed.

(** C3, as the specification states it, fails: with a name declared
    twice, one token of that name assigns both flags, and two string
    flags of one name take two value tokens for one flag token. *)
Lemma flag_parse_assigns_every_duplicate :
  (∃ c', flag_parse duplicate_context 0 ["prog"; "-v"] = Returned true c' 0 ∧
         val <$> flags duplicate_context !! 1%nat = Some (as_bool false) ∧
         val <$> flags c' !! 0%nat = Some (as_bool true) ∧
         val <$> flags c' !! 1%nat = Some (as_bool true)) ∧
  (∃ c', flag_parse duplicate_context 0 ["prog"; "-o"; "a"; "b"; "c"]
           = Returned true c' 0 ∧
         val <$> flags c' !! 2%nat = Some (as_str (Some "a")) ∧
         val <$> flags c' !! 3%nat = Some (as_str (Some "b")) ∧
         flag_rest_argv c' = ["c"]).
Proof.
  split; eexists; (split; [reflexivity |]); repeat split.
Qed.

(** ** The scan of the registry, flag by flag *)

Lemma flag_parse_for_past n i nm found c errno args :
  (length (flags c) ≤ i)%nat →
  flag_parse_for n i nm found c errno args = (found, Continue c errno args).
Proof.
  intros Hi. destruct n; simpl; [done |].
  apply lookup_ge_None in Hi. by rewrite Hi.
Qed.

(** The first [m] iterations of the [for] loop, then the others. *)
Lemma flag_parse_for_split m : ∀ n i nm found c errno args,
  flag_parse_for (m + n) i nm found c errno args =
  match flag_parse_for m i nm found c errno args with
  | (found1, Continue c1 errno1 args1) =>
      flag_parse_for n (i + m) nm found1 c1 errno1 args1
  | (found1, Return b c1 errno1) => (found1, Return b c1 errno1)
  end.
Proof.
  induction m as [|m IH]; intros n i nm found c errno args.
  { simpl. by rewrite Nat.add_0_r. }
  replace (i + S m)%nat with (S i + m)%nat by lia. simpl.
  destruct (flags c !! i) as [f|] eqn:Hi.
  2:{ apply lookup_ge_None in Hi. rewrite flag_parse_for_past; [done | lia]. }
  destruct (String.eqb (name f) nm); [| apply IH].
  destruct (type f).
  - apply IH.
  - destruct args as [|arg args']; [done |].
    destruct (flag_parse_uint64 i nm arg c errno) as [[c1 e1]|[c1 e1]];
      [apply IH | done].
  - destruct args as [|arg args']; [done | apply IH].
Qed.

Lemma count_value_flags_app nm fs1 fs2 :
  count_value_flags nm (fs1 ++ fs2) =
  (count_value_flags nm fs1 + count_value_flags nm fs2)%nat.
Proof. induction fs1 as [|f fs1 IH]; simpl; [done | rewrite IH; lia]. Qed.

Lemma count_value_flags_take_S nm fs m f :
  fs !! m = Some f →
  count_value_flags nm (take (S m) fs) =
  (count_value_flags nm (take m fs)
   + (if String.eqb (name f) nm && takes_value f then 1 else 0))%nat.
Proof.
  intros Hm. rewrite (take_S_r _ _ _ Hm), count_value_flags_app. simpl. lia.
Qed.

Lemma drop_cons_inv (k : nat) (l : list string) x r :
  drop k l = x :: r → l !! k = Some x ∧ r = drop (S k) l ∧ (S k ≤ length l)%nat.
Proof.
  intros Hd.
  assert (Hk : l !! k = Some x).
  { pose proof (lookup_drop l k 0) as Hl. rewrite Hd, Nat.add_0_r in Hl.
    by rewrite <- Hl. }
  split; [done |]. split.
  - rewrite (drop_S _ _ _ Hk) in Hd. by inversion Hd.
  - apply lookup_lt_Some in Hk. lia.
Qed.

Lemma assigned_at_set_val args k f v :
  match type f with
  | FLAG_BOOL => v = as_bool true
  | FLAG_STR => ∃ arg, args !! k = Some arg ∧ v = as_str (Some arg)
  | FLAG_UINT64 =>
      ∃ arg neg n, args !! k = Some arg ∧ numeral arg neg n ∧
        v = as_uint64 (numeral_result neg n)
  end →
  assigned_at args k f (set_val v f).
Proof. intros Hv. by repeat split. Qed.

(** What one more iteration adds to the flags that the scan has passed. *)
Lemma flag_parse_for_prefix_step nm args c cm c1 m f :
  flags c !! m = Some f →
  (∀ j g, flags c !! j = Some g → (j < m)%nat → name g = nm →
     ∃ g', flags cm !! j = Some g' ∧
           assigned_at args (count_value_flags nm (take j (flags c))) g g') →
  (∀ j g, flags c !! j = Some g → (m ≤ j)%nat ∨ name g ≠ nm →
     flags cm !! j = Some g) →
  (name f ≠ nm ∧ c1 = cm ∨
   name f = nm ∧ ∃ v, c1 = assign_val m v cm ∧
     assigned_at args (count_value_flags nm (take m (flags c))) f (set_val v f)) →
  (∀ j g, flags c !! j = Some g → (j < S m)%nat → name g = nm →
     ∃ g', flags c1 !! j = Some g' ∧
           assigned_at args (count_value_flags nm (take j (flags c))) g g') ∧
  (∀ j g, flags c !! j = Some g → (S m ≤ j)%nat ∨ name g ≠ nm →
     flags c1 !! j = Some g).
Proof.
  intros Hm Hset Hsame Hstep.
  assert (Hcm : flags cm !! m = Some f) by (apply Hsame; [done | left; lia]).
  split.
  - intros j g Hj Hlt Hname.
    destruct (decide (j = m)) as [-> | Hne].
    + rewrite Hm in Hj. injection Hj as <-.
      destruct Hstep as [(Hno & _) | (_ & v & -> & Hv)]; [done |].
      exists (set_val v f). split; [by apply assign_val_lookup | done].
    + destruct (Hset j g Hj) as (g' & Hg' & Hass); [lia | done |].
      exists g'. split; [| done].
      destruct Hstep as [(_ & ->) | (_ & v & -> & _)]; [done |].
      by rewrite assign_val_lookup_ne.
  - intros j g Hj Hor.
    assert (Hg : flags cm !! j = Some g).
    { apply Hsame; [done |]. destruct Hor; [left; lia | by right]. }
    destruct Hstep as [(_ & ->) | (Hname & v & -> & _)]; [done |].
    rewrite assign_val_lookup_ne; [done |].
    intros <-. rewrite Hm in Hj. injection Hj as <-.
    destruct Hor; [lia | done].
Qed.

(** The state after the first [m] iterations of the scan for [nm]: each
    flag of the name that was passed is assigned, a string or integer
    flag with the token at the position that counts the value-taking
    flags of the name before it; the other flags are as they were; the
    tokens taken are a prefix of the arguments. *)
Lemma flag_parse_for_prefix m : ∀ nm found c errno args fd1 c1 errno1 args1,
  flag_parse_for m 0 nm found c errno args = (fd1, Continue c1 errno1 args1) →
  (m ≤ flags_count c)%nat →
  (count_value_flags nm (take m (flags c)) ≤ length args)%nat ∧
  args1 = drop (count_value_flags nm (take m (flags c))) args ∧
  (∀ j g, flags c !! j = Some g → (j < m)%nat → name g = nm →
     ∃ g', flags c1 !! j = Some g' ∧
           assigned_at args (count_value_flags nm (take j (flags c))) g g') ∧
  (∀ j g, flags c !! j = Some g → (m ≤ j)%nat ∨ name g ≠ nm →
     flags c1 !! j = Some g).
Proof.
  induction m as [|m IH]; intros nm found c errno args fd1 c1 errno1 args1 Hrun Hm.
  { simpl in Hrun. inversion Hrun; subst. simpl.
    split; [lia |]. split; [done |]. split; [intros; lia | done]. }
  replace (S m) with (m + 1)%nat in Hrun by lia.
  rewrite flag_parse_for_split in Hrun.
  destruct (flag_parse_for m 0 nm found c errno args)
    as [fdm [cm em am|bm cm em]] eqn:Hprefix; [| done].
  apply IH in Hprefix as (Hle & Ham & Hset & Hsame); [| lia].
  unfold flags_count in Hm.
  destruct (lookup_lt_is_Some_2 (flags c) m) as [f Hf]; [lia |].
  assert (Hcm : flags cm !! m = Some f) by (apply Hsame; [done | left; lia]).
  rewrite (count_value_flags_take_S _ _ _ _ Hf).
  simpl in Hrun. rewrite Hcm in Hrun.
  destruct (String.eqb (name f) nm) eqn:Heq.
  2:{ inversion Hrun; subst. simpl. rewrite Nat.add_0_r.
      split; [done |]. split; [done |].
      apply String.eqb_neq in Heq.
      eapply flag_parse_for_prefix_step; eauto. }
  apply String.eqb_eq in Heq. simpl.
  destruct (type f) eqn:Hty; unfold takes_value; rewrite Hty.
  - inversion Hrun; subst. rewrite Nat.add_0_r.
    split; [done |]. split; [done |].
    eapply flag_parse_for_prefix_step; eauto.
    right. split; [done |]. eexists. split; [done |].
    apply assigned_at_set_val. by rewrite Hty.
  - destruct am as [|arg a2] eqn:Ea; [done |].
    destruct (flag_parse_uint64 m nm arg cm em) as [[c2 e2]|[c2 e2]] eqn:Hu;
      [| done].
    apply flag_parse_uint64_stores in Hu as (neg & v & Hnum & ->).
    inversion Hrun; subst.
    symmetry in Ham. apply drop_cons_inv in Ham as (Hk & -> & Hlen).
    split; [lia |]. split; [f_equal; lia |].
    eapply flag_parse_for_prefix_step; eauto.
    right. split; [done |]. eexists. split; [done |].
    apply assigned_at_set_val. rewrite Hty. by exists arg, neg, v.
  - destruct am as [|arg a2] eqn:Ea; [done |].
    inversion Hrun; subst.
    symmetry in Ham. apply drop_cons_inv in Ham as (Hk & -> & Hlen).
    split; [lia |]. split; [f_equal; lia |].
    eapply flag_parse_for_prefix_step; eauto.
    right. split; [done |]. eexists. split; [done |].
    apply assigned_at_set_val. rewrite Hty. by exists arg.
Qed.

(** The two number errors, by what the argument is. *)
Lemma flag_parse_uint64_errors i nm arg c errno c' errno' :
  flag_parse_uint64 i nm arg c errno = inr (c', errno') →
  c' = set_error FLAG_ERROR_INVALID_NUMBER nm c ∧ (∀ neg v, ¬ numeral arg neg v) ∨
  c' = set_error FLAG_ERROR_INTEGER_OVERFLOW nm c ∧
    (∃ neg v, numeral arg neg v ∧
       (ULLONG_MAX < v ∨ errno = ERANGE ∧ numeral_result neg v = ULLONG_MAX)).
Proof.
  intros Hu.
  destruct (classic_numeral arg) as [(neg & v & Hnum) | Hno].
  - right.
    unfold flag_parse_uint64 in Hu.
    destruct (strtoull_numeral arg neg v errno Hnum) as (Hs & Hlen & Hend).
    rewrite Hs in Hu. apply Nat.eqb_neq in Hlen.
    destruct (ULLONG_MAX <? v) eqn:Hv; rewrite Hend, Hlen in Hu; simpl in Hu.
    + inversion Hu; subst. split; [done |]. exists neg, v.
      split; [done |]. left. by apply Z.ltb_lt.
    + destruct (numeral_result neg v =? ULLONG_MAX) eqn:Hr; simpl in Hu;
        [| by inversion Hu].
      destruct (errno =? ERANGE) eqn:He; inversion Hu; subst.
      split; [done |]. exists neg, v. split; [done |]. right.
      split; [by apply Z.eqb_eq | by apply Z.eqb_eq].
  - left. split; [| done].
    destruct (flag_parse_uint64_invalid i nm arg c errno Hno) as (e' & He).
    rewrite He in Hu. by inversion Hu.
Qed.

(** A scan that makes [flag_parse] return has passed some flags and
    fails at a value-taking flag [m] of the name: no argument is left for
    it, or its argument is not stored as a number.  The flags are those
    of the state in which flag [m] was reached. *)
Lemma flag_parse_for_fails n : ∀ nm found c errno args fd b c' errno',
  flag_parse_for n 0 nm found c errno args = (fd, Return b c' errno') →
  (n ≤ flags_count c)%nat →
  ∃ m f fdm cm em am, (m < n)%nat ∧
    flag_parse_for m 0 nm found c errno args = (fdm, Continue cm em am) ∧
    flags c !! m = Some f ∧ name f = nm ∧
    b = false ∧ flags c' = flags cm ∧ flag_error_name c' = Some nm ∧
    (am = [] ∧ type f ≠ FLAG_BOOL ∧ flag_error c' = FLAG_ERROR_NO_VALUE ∨
     ∃ arg a2, am = arg :: a2 ∧ type f = FLAG_UINT64 ∧
       (flag_error c' = FLAG_ERROR_INVALID_NUMBER ∧ (∀ neg v, ¬ numeral arg neg v) ∨
        flag_error c' = FLAG_ERROR_INTEGER_OVERFLOW ∧
          (∃ neg v, numeral arg neg v ∧
             (ULLONG_MAX < v ∨
              em = ERANGE ∧ numeral_result neg v = ULLONG_MAX)))).
Proof.
  induction n as [|n IH]; intros nm found c errno args fd b c' errno' Hrun Hn;
    [done |].
  replace (S n) with (n + 1)%nat in Hrun by lia.
  rewrite flag_parse_for_split in Hrun.
  destruct (flag_parse_for n 0 nm found c errno args)
    as [fdm [cm em am|bm cm em]] eqn:Hprefix.
  2:{ inversion Hrun; subst.
      destruct (IH _ _ _ _ _ _ _ _ _ Hprefix) as (m & f & fd1 & c1 & e1 & a1 & Hlt & Hrest);
        [lia |].
      exists m, f, fd1, c1, e1, a1. split; [lia | done]. }
  pose proof Hprefix as Hpre.
  apply flag_parse_for_prefix in Hpre as (_ & _ & _ & Hsame); [| lia].
  unfold flags_count in Hn.
  destruct (lookup_lt_is_Some_2 (flags c) n) as [f Hf]; [lia |].
  assert (Hcm : flags cm !! n = Some f) by (apply Hsame; [done | left; lia]).
  simpl in Hrun. rewrite Hcm in Hrun.
  destruct (String.eqb (name f) nm) eqn:Heq; [| done].
  apply String.eqb_eq in Heq.
  exists n, f, fdm, cm, em, am. split; [lia |]. split; [done |].
  split; [done |]. split; [done |].
  destruct (type f) eqn:Hty; [done | |].
  - destruct am as [|arg a2].
    + inversion Hrun; subst. simpl. repeat split. left. by repeat split.
    + destruct (flag_parse_uint64 n nm arg cm em) as [[c2 e2]|[c2 e2]] eqn:Hu;
        [done |].
      inversion Hrun; subst.
      apply flag_parse_uint64_errors in Hu.
      destruct Hu as [(-> & Hno) | (-> & Hnum)]; simpl; repeat split;
        right; exists arg, a2; (split; [done |]); (split; [done |]).
      * by left.
      * by right.
  - destruct am as [|arg a2]; [| done].
    inversion Hrun; subst. simpl. repeat split. left. by repeat split.
Qed.

(** The body of the [while] loop at a flag token: the scan of the whole
    registry, then the test of [found]. *)
Lemma flag_parse_body_scan flag c errno rest :
  flag_token flag = true →
  flag_parse_body flag c errno rest =
  after_for (ptr_add flag 1)
    (flag_parse_for (flags_count c) 0 (ptr_add flag 1) false c errno rest).
Proof.
  unfold flag_token, flag_parse_body.
  intros [Hd Ht]%andb_true_iff. rewrite Hd. simpl negb. cbv iota.
  apply negb_true_iff in Ht. by rewrite Ht.
Qed.

(** C3, amended.  A flag token whose name was declared more than once
    assigns every flag of that name, in the order of declaration: the
    scan of the registry goes on after a hit.  When the token is
    processed without an error, each boolean flag of the name is [true]
    and each string or integer flag of the name holds a value token of
    its own: the flag at index [j] holds the token at the position that
    counts the string and integer flags of the name declared before it
    (the first of them the token behind the flag token, the second the
    next one, and so on).  The tokens taken are as many as the flags of
    the name that take a value; flags of another name are not touched. *)
Theorem flag_parse_duplicate_names flag c errno rest c' errno' rest' :
  flag_parse_body flag c errno rest = Continue c' errno' rest' →
  (count_value_flags (ptr_add flag 1) (flags c) ≤ length rest)%nat ∧
  rest' = drop (count_value_flags (ptr_add flag 1) (flags c)) rest ∧
  (∀ j f, flags c !! j = Some f → name f = ptr_add flag 1 →
     ∃ f', flags c' !! j = Some f' ∧
           assigned_at rest
             (count_value_flags (ptr_add flag 1) (take j (flags c))) f f') ∧
  (∀ j f, flags c !! j = Some f → name f ≠ ptr_add flag 1 →
     flags c' !! j = Some f).
Proof.
  intros Hb.
  pose proof (flag_parse_body_inv flag c errno rest) as Hinv. rewrite Hb in Hinv.
  destruct Hinv as (Htok & _).
  rewrite (flag_parse_body_scan _ _ _ _ Htok) in Hb.
  destruct (flag_parse_for _ _ _ _ _ _ _) as [found [c1 e1 a1|b1 c1 e1]] eqn:Hrun;
    [| done].
  simpl in Hb. destruct found; simpl in Hb; [| done]. inversion Hb; subst.
  apply flag_parse_for_prefix in Hrun as (Hle & Hrest & Hset & Hsame); [| done].
  unfold flags_count in *. rewrite take_ge in Hle, Hrest by done.
  split; [done |]. split; [done |]. split.
  - intros j f Hj Hname. apply Hset; [done | | done].
    by apply lookup_lt_Some in Hj.
  - intros j f Hj Hname. apply Hsame; [done | by right].
Qed.

Lemma flag_parse_duplicate_names_witness :
  let c' := assign_val 3 (as_str (Some "b"))
              (assign_val 2 (as_str (Some "a")) duplicate_context) in
  (count_value_flags "o" (flags duplicate_context) ≤ length ["a"; "b"; "c"])%nat ∧
  ["c"] = drop (count_value_flags "o" (flags duplicate_context)) ["a"; "b"; "c"] ∧
  (∀ j f, flags duplicate_context !! j = Some f → name f = "o" →
     ∃ f', flags c' !! j = Some f' ∧
           assigned_at ["a"; "b"; "c"]
             (count_value_flags "o" (take j (flags duplicate_context))) f f') ∧
  (∀ j f, flags duplicate_context !! j = Some f → name f ≠ "o" →
     flags c' !! j = Some f).
Proof.
  intros c'.
  apply (flag_parse_duplicate_names "-o" duplicate_context 0 ["a"; "b"; "c"]
           c' 0 ["c"]).
  reflexivity.
Defined.

(** C7. Every string flag that the scan of a flag token matches.  The
    pass arrives at a flag token [flag] whose name is the name of the
    string flag [f] at index [j].  The flag is matched when the scan of
    the registry reaches it; [args_j] are the arguments then left: for
    the first flag of the name the scan does reach it, with all the
    arguments behind the flag token; for a later flag of the name they
    are the arguments behind the values that the earlier ones took.
    If no argument is left, [flag_parse] returns [false] with
    [FLAG_ERROR_NO_VALUE] and the name of the flag.  Otherwise the next
    argument becomes the current value of the flag as it is, whatever its
    text (it may start with a dash or be the token of a declared flag),
    and this is the value in the state that the pass goes on with or
    returns. *)
Theorem flag_parse_string_flag c0 errno0 argv c errno flag rest j f :
  flag_parse_arrives c0 errno0 argv c errno (flag :: rest) →
  deref flag = "-"%char → flag ≠ "--" →
  flags c !! j = Some f → name f = ptr_add flag 1 → type f = FLAG_STR →
  ((∀ k g, (k < j)%nat → flags c !! k = Some g → name g ≠ name f) →
   flag_parse_for j 0 (name f) false c errno rest
     = (false, Continue c errno rest)) ∧
  (∀ found_j c_j errno_j args_j,
     flag_parse_for j 0 (name f) false c errno rest
       = (found_j, Continue c_j errno_j args_j) →
     args_j = drop (count_value_flags (name f) (take j (flags c))) rest ∧
     (args_j = [] →
      ∃ c', flag_parse c0 errno0 argv = Returned false c' errno_j ∧
        flag_error c' = FLAG_ERROR_NO_VALUE ∧
        flag_error_name c' = Some (name f) ∧
        flags c' = flags c_j ∧
        rest_argc c' = rest_argc c ∧ rest_argv c' = rest_argv c) ∧
     (∀ arg args', args_j = arg :: args' →
      ∃ f', flags (step_ctx (flag_parse_body flag c errno rest)) !! j = Some f' ∧
        val f' = as_str (Some arg) ∧
        type f' = type f ∧ name f' = name f ∧ desc f' = desc f ∧ def f' = def f)) ∧
  match flag_parse_body flag c errno rest with
  | Continue c1 errno1 args1 => flag_parse_arrives c0 errno0 argv c1 errno1 args1
  | Return b c1 errno1 => flag_parse c0 errno0 argv = Returned b c1 errno1
  end.
Proof.
  intros Harr Hd Ht Hj Hn Hty.
  assert (Htok : flag_token flag = true).
  { unfold flag_token. rewrite Hd. apply String.eqb_neq in Ht. by rewrite Ht. }
  pose proof (lookup_lt_Some _ _ _ Hj) as Hlt.
  pose proof (flag_parse_arrives_while _ _ _ _ _ _ Harr) as Hw. simpl in Hw.
  split; [| split].
  - intros Hfirst.
    pose proof (flag_parse_for_skip j 0 0 (name f) false c errno rest) as Hs.
    rewrite Nat.add_0_r in Hs. rewrite Hs; [done |].
    intros k g Hk Hg. apply (Hfirst k g); [lia | done].
  - intros found_j c_j errno_j args_j Hrun.
    pose proof (flag_parse_for_prefix _ _ _ _ _ _ _ _ _ _ Hrun) as Hpre.
    destruct Hpre as (_ & Hargs & _ & Hsame); [unfold flags_count; lia |].
    assert (Hcj : flags c_j !! j = Some f) by (apply Hsame; [done | left; lia]).
    pose proof (flag_parse_for_inv _ _ _ _ _ _ _ _ _ Hrun)
      as (_ & _ & Hrc & Hrv & _). simpl in Hrc, Hrv.
    pose proof (flag_parse_body_scan flag c errno rest Htok) as Hb.
    replace (flags_count c) with (j + S (flags_count c - S j))%nat in Hb
      by (unfold flags_count; lia).
    rewrite <- Hn in Hb.
    rewrite flag_parse_for_split, Hrun in Hb. simpl Nat.add in Hb.
    rewrite (flag_parse_for_string _ _ _ _ _ _ _ f Hcj eq_refl Hty) in Hb.
    split; [done |]. split.
    + intros ->. rewrite Hb in Hw. simpl in Hw. eexists. split; [exact Hw |].
      simpl. done.
    + intros arg args' ->. rewrite Hb.
      destruct (after_for_assigned (flags_count c - S j) j (name f)
                  (assign_val j (as_str (Some arg)) c_j) errno_j args')
        as (Hval & _).
      rewrite (assign_val_lookup _ _ _ f Hcj) in Hval.
      eexists. split; [exact Hval |]. done.
  - destruct (flag_parse_body flag c errno rest) as [c1 e1 a1|b c1 e1] eqn:Hbody.
    + by eapply flag_parse_arrives_next.
    + done.
Qed.

Lemma flag_parse_string_flag_witness :
  let argv := ["prog"; "-o"; "-v"; "b"; "c"] in
  let c := duplicate_context in
  let c_j := assign_val 2 (as_str (Some "-v")) duplicate_context in
  ["b"; "c"] = drop (count_value_flags "o" (take 3 (flags c))) ["-v"; "b"; "c"] ∧
  (["b"; "c"] = [] →
   ∃ c', flag_parse c 0 argv = Returned false c' 0 ∧
     flag_error c' = FLAG_ERROR_NO_VALUE ∧
     flag_error_name c' = Some "o" ∧
     flags c' = flags c_j ∧
     rest_argc c' = rest_argc c ∧ rest_argv c' = rest_argv c) ∧
  (∀ arg args', ["b"; "c"] = arg :: args' →
   ∃ f', flags (step_ctx (flag_parse_body "-o" c 0 ["-v"; "b"; "c"])) !! 3%nat
           = Some f' ∧
     val f' = as_str (Some arg) ∧
     type f' = FLAG_STR ∧ name f' = "o" ∧ desc f' = "second o" ∧
     def f' = as_str None).
Proof.
  intros argv c c_j.
  destruct (flag_parse_string_flag c 0 argv c 0 "-o" ["-v"; "b"; "c"] 3
              (mkFlag FLAG_STR "o" "second o" (as_str None) (as_str None)))
    as (_ & Hreached & _).
  - exists "prog", ["-o"; "-v"; "b"; "c"].
    split; [reflexivity | apply reaches_here].
  - reflexivity.
  - discriminate.
  - reflexivity.
  - reflexivity.
  - reflexivity.
  - apply (Hreached true c_j 0 ["b"; "c"]). vm_compute. reflexivity.
Defined.

(** C8. When [flag_parse] returns [false] there is no rollback: the flags
    are those of the moment of the error.  The pass arrived at a flag
    token on which it failed; [c] is the registry when that token was
    reached, it holds every assignment made before.  Either no flag has
    the name of the token, and the flags are those of [c]; or the scan
    for the name failed at a flag [m] that takes a value (no argument
    left for it, or a number that is not stored), and the flags are those
    of the state [c_m] in which flag [m] was reached: the flags of the
    name before [m] hold what the failing token assigned to them, every
    other flag is as in [c].  A flag whose name the pass never looked up
    is as it was before the pass. *)
Theorem flag_parse_failure_no_rollback c0 errno0 argv c' errno' :
  flag_parse c0 errno0 argv = Returned false c' errno' →
  ∃ c errno flag rest,
    flag_parse_arrives c0 errno0 argv c errno (flag :: rest) ∧
    flag_parse_body flag c errno rest = Return false c' errno' ∧
    flag_token flag = true ∧
    (∀ j f, flags c !! j = Some f → name f ≠ ptr_add flag 1 →
            flags c' !! j = Some f) ∧
    ((∀ j k f g, flags c !! j = Some f → flags c !! k = Some g →
        name f = ptr_add flag 1 → name g = ptr_add flag 1 → j = k) →
     flags c' = flags c) ∧
    (flag_error c' = FLAG_ERROR_UNKNOWN ∧ flags c' = flags c ∨
     ∃ m f found_m c_m errno_m args_m,
       flags c !! m = Some f ∧ name f = ptr_add flag 1 ∧
       flag_parse_for m 0 (ptr_add flag 1) false c errno rest
         = (found_m, Continue c_m errno_m args_m) ∧
       args_m = drop (count_value_flags (ptr_add flag 1) (take m (flags c))) rest ∧
       flags c' = flags c_m ∧
       (args_m = [] ∧ type f ≠ FLAG_BOOL ∧
          flag_error c' = FLAG_ERROR_NO_VALUE ∨
        ∃ arg a2, args_m = arg :: a2 ∧ type f = FLAG_UINT64 ∧
          (flag_error c' = FLAG_ERROR_INVALID_NUMBER ∧
             (∀ neg v, ¬ numeral arg neg v) ∨
           flag_error c' = FLAG_ERROR_INTEGER_OVERFLOW ∧
             (∃ neg v, numeral arg neg v ∧
                (ULLONG_MAX < v ∨
                 errno_m = ERANGE ∧ numeral_result neg v = ULLONG_MAX)))) ∧
       (∀ j g, flags c !! j = Some g → (j < m)%nat → name g = ptr_add flag 1 →
          ∃ g', flags c' !! j = Some g' ∧
                assigned_at rest
                  (count_value_flags (ptr_add flag 1) (take j (flags c))) g g') ∧
       (∀ j g, flags c !! j = Some g → (m ≤ j)%nat → flags c' !! j = Some g)) ∧
    (∀ j f, flags c0 !! j = Some f →
            name f ∉ flag_parse_names c0 errno0 argv →
            flags c' !! j = Some f).
Proof.
  intros Hp.
  destruct (flag_parse_ends _ _ _ _ _ _ Hp) as (c & e & args & Harr & Hend).
  destruct Hend as [(_ & [=] & _) | (flag & rest & -> & Hb)].
  exists c, e, flag, rest.
  pose proof (flag_parse_body_inv flag c e rest) as Hinv. rewrite Hb in Hinv.
  destruct Hinv as (Htok & U & _).
  assert (Hother : ∀ j f, flags c !! j = Some f → name f ≠ ptr_add flag 1 →
                          flags c' !! j = Some f).
  { intros j f Hj Hne. eapply updates_unseen; [exact U | done |].
    intros Hin. by apply list_elem_of_singleton in Hin. }
  assert (Hcases :
    flag_error c' = FLAG_ERROR_UNKNOWN ∧ flags c' = flags c ∨
    ∃ m f found_m c_m errno_m args_m,
      flags c !! m = Some f ∧ name f = ptr_add flag 1 ∧
      flag_parse_for m 0 (ptr_add flag 1) false c e rest
        = (found_m, Continue c_m errno_m args_m) ∧
      args_m = drop (count_value_flags (ptr_add flag 1) (take m (flags c))) rest ∧
      flags c' = flags c_m ∧
      (args_m = [] ∧ type f ≠ FLAG_BOOL ∧
         flag_error c' = FLAG_ERROR_NO_VALUE ∨
       ∃ arg a2, args_m = arg :: a2 ∧ type f = FLAG_UINT64 ∧
         (flag_error c' = FLAG_ERROR_INVALID_NUMBER ∧
            (∀ neg v, ¬ numeral arg neg v) ∨
          flag_error c' = FLAG_ERROR_INTEGER_OVERFLOW ∧
            (∃ neg v, numeral arg neg v ∧
               (ULLONG_MAX < v ∨
                errno_m = ERANGE ∧ numeral_result neg v = ULLONG_MAX)))) ∧
      (∀ j g, flags c !! j = Some g → (j < m)%nat → name g = ptr_add flag 1 →
         ∃ g', flags c' !! j = Some g' ∧
               assigned_at rest
                 (count_value_flags (ptr_add flag 1) (take j (flags c))) g g') ∧
      (∀ j g, flags c !! j = Some g → (m ≤ j)%nat → flags c' !! j = Some g)).
  { rewrite (flag_parse_body_scan _ _ _ _ Htok) in Hb.
    destruct (flag_parse_for _ _ _ _ _ _ _) as [found [c1 e1 a1|b1 c1 e1]] eqn:Hrun.
    - simpl in Hb. destruct found; simpl in Hb; [done |].
      inversion Hb; subst.
      apply flag_parse_for_not_found in Hrun as (-> & _). by left.
    - simpl in Hb. inversion Hb; subst. right.
      apply flag_parse_for_fails in Hrun
        as (m & f & fdm & cm & em & am & Hlt & Hpre & Hm & Hname & _ & Hfl & _ & Herr);
        [| done].
      pose proof (flag_parse_for_prefix _ _ _ _ _ _ _ _ _ _ Hpre)
        as (_ & Ham & Hset & Hsame); [lia |].
      exists m, f, fdm, cm, em, am. rewrite Hfl.
      repeat split; try done.
      intros j g Hj Hle. apply Hsame; [done | by left]. }
  repeat split; try done.
  - intros Huniq. destruct Hcases as [(_ & ->) | Hfail]; [done |].
    destruct Hfail as (m & f & _ & _ & _ & _ & Hm & Hname & _ & _ & _ & _ & _ & Hge).
    apply list_eq. intros j.
    destruct (flags c !! j) as [g|] eqn:Hj.
    + destruct (decide (name g = ptr_add flag 1)) as [Hg | Hg];
        [| by apply Hother].
      apply Hge; [done |]. rewrite (Huniq j m g f); done.
    + apply lookup_ge_None in Hj. apply lookup_ge_None.
      apply Forall2_length in U. unfold updates in U. lia.
  - intros j f Hj Hnot.
    eapply updates_unseen; [by eapply flag_parse_updates | done | done].
Qed.

Lemma flag_parse_failure_no_rollback_witness :
  let argv := ["prog"; "-v"; "-o"; "a"] in
  let c' := set_error FLAG_ERROR_NO_VALUE "o"
              (assign_val 2 (as_str (Some "a"))
                 (assign_val 1 (as_bool true)
                    (assign_val 0 (as_bool true) duplicate_context))) in
  ∃ c errno flag rest,
    flag_parse_arrives duplicate_context 0 argv c errno (flag :: rest) ∧
    flag_parse_body flag c errno rest = Return false c' 0 ∧
    flag_token flag = true ∧
    (∀ j f, flags c !! j = Some f → name f ≠ ptr_add flag 1 →
            flags c' !! j = Some f) ∧
    ((∀ j k f g, flags c !! j = Some f → flags c !! k = Some g →
        name f = ptr_add flag 1 → name g = ptr_add flag 1 → j = k) →
     flags c' = flags c) ∧
    (flag_error c' = FLAG_ERROR_UNKNOWN ∧ flags c' = flags c ∨
     ∃ m f found_m c_m errno_m args_m,
       flags c !! m = Some f ∧ name f = ptr_add flag 1 ∧
       flag_parse_for m 0 (ptr_add flag 1) false c errno rest
         = (found_m, Continue c_m errno_m args_m) ∧
       args_m = drop (count_value_flags (ptr_add flag 1) (take m (flags c))) rest ∧
       flags c' = flags c_m ∧
       (args_m = [] ∧ type f ≠ FLAG_BOOL ∧
          flag_error c' = FLAG_ERROR_NO_VALUE ∨
        ∃ arg a2, args_m = arg :: a2 ∧ type f = FLAG_UINT64 ∧
          (flag_error c' = FLAG_ERROR_INVALID_NUMBER ∧
             (∀ neg v, ¬ numeral arg neg v) ∨
           flag_error c' = FLAG_ERROR_INTEGER_OVERFLOW ∧
             (∃ neg v, numeral arg neg v ∧
                (ULLONG_MAX < v ∨
                 errno_m = ERANGE ∧ numeral_result neg v = ULLONG_MAX)))) ∧
       (∀ j g, flags c !! j = Some g → (j < m)%nat → name g = ptr_add flag 1 →
          ∃ g', flags c' !! j = Some g' ∧
                assigned_at rest
                  (count_value_flags (ptr_add flag 1) (take j (flags c))) g g') ∧
       (∀ j g, flags c !! j = Some g → (m ≤ j)%nat → flags c' !! j = Some g)) ∧
    (∀ j f, flags duplicate_context !! j = Some f →
            name f ∉ flag_parse_names duplicate_context 0 argv →
            flags c' !! j = Some f).
Proof.
  intros argv c'.
  apply (flag_parse_failure_no_rollback duplicate_context 0 argv c' 0).
  reflexivity.
Defined.

(** * More of the library *)

(** ** Declarations: [flag_new], [flag_bool], [flag_uint64], [flag_str],
    [flag_name] *)

Lemma declare_flag d c h c1 :
  declare d c = Some (h, c1) →
  h = flags_count c ∧ c1 = set_flags (flags c ++ [declared_flag d]) c.
Proof.
  assert (Halt : ∀ (fs : list Flag) f0 g,
            alter g (length fs) (fs ++ [f0]) = fs ++ [g f0]).
  { intros fs f0 g. rewrite alter_app_r_alt by lia.
    by rewrite Nat.sub_diag. }
  destruct d as [nm d ds|nm d ds|nm d ds]; simpl;
    unfold flag_bool, flag_uint64, flag_str, flag_new, flags_count;
    case_decide; try done; intros [= <- <-];
    (split; [done |]); unfold assign_val, assign_def, set_flags; simpl;
    rewrite !Halt; done.
Qed.

Lemma declare_room d c h c1 :
  declare d c = Some (h, c1) → (flags_count c < FLAGS_CAP)%nat.
Proof.
  destruct d as [nm d ds|nm d ds|nm d ds]; simpl;
    unfold flag_bool, flag_uint64, flag_str, flag_new;
    case_decide; done.
Qed.

(** X1. A declaration fails (the [assert] of [flag_new] aborts) exactly
    when the registry already holds [FLAGS_CAP] flags. *)
Theorem declare_aborts_at_capacity d c :
  declare d c = None ↔ (FLAGS_CAP ≤ flags_count c)%nat.
Proof.
  destruct d as [nm d ds|nm d ds|nm d ds]; simpl;
    unfold flag_bool, flag_uint64, flag_str, flag_new;
    case_decide; split; intros; try done; lia.
Qed.

(** X2. A declaration that succeeds returns the number of flags declared
    before as its handle, and appends one flag to the registry: the
    declared type, name and description, current value and default both
    the declared default.  The flags declared before, the error slot and
    the leftover arguments are not touched. *)
Theorem declare_appends_flag d c h c1 :
  declare d c = Some (h, c1) →
  h = flags_count c ∧
  flags c1 = flags c ++ [declared_flag d] ∧
  flags_count c1 = S (flags_count c) ∧
  flags c1 !! h = Some (declared_flag d) ∧
  (∀ j f, flags c !! j = Some f → flags c1 !! j = Some f) ∧
  flag_error c1 = flag_error c ∧ flag_error_name c1 = flag_error_name c ∧
  rest_argc c1 = rest_argc c ∧ rest_argv c1 = rest_argv c.
Proof.
  intros (-> & ->)%declare_flag. simpl. unfold flags_count. simpl.
  repeat split.
  - rewrite length_app. simpl. lia.
  - rewrite lookup_app_r by lia. by rewrite Nat.sub_diag.
  - intros j f Hj. by apply lookup_app_l_Some.
Qed.

Lemma declare_appends_flag_witness :
  ∃ c1, declare (declare_uint64 "n" 3 "a number") example_context = Some (3%nat, c1) ∧
    3%nat = flags_count example_context ∧
    flags c1 = flags example_context ++ [declared_flag (declare_uint64 "n" 3 "a number")] ∧
    flags_count c1 = S (flags_count example_context) ∧
    flags c1 !! 3%nat = Some (declared_flag (declare_uint64 "n" 3 "a number")) ∧
    (∀ j f, flags example_context !! j = Some f → flags c1 !! j = Some f) ∧
    flag_error c1 = flag_error example_context ∧
    flag_error_name c1 = flag_error_name example_context ∧
    rest_argc c1 = rest_argc example_context ∧
    rest_argv c1 = rest_argv example_context.
Proof.
  eexists. split; [reflexivity |].
  apply (declare_appends_flag (declare_uint64 "n" 3 "a number") example_context).
  reflexivity.
Defined.

(** X3. The registry never holds more than [FLAGS_CAP] flags: the bound
    is kept by every sequence of declarations, so it holds for every
    registry declared from the empty one. *)
Theorem declares_within_capacity c c' :
  declares c c' →
  (flags_count c ≤ FLAGS_CAP)%nat →
  (flags_count c ≤ flags_count c')%nat ∧ (flags_count c' ≤ FLAGS_CAP)%nat.
Proof.
  induction 1 as [c|d c h c1 c2 Hd _ IH]; intros Hcap; [done |].
  pose proof (declare_room _ _ _ _ Hd) as Hlt.
  apply declare_flag in Hd as (_ & ->).
  unfold flags_count in *. simpl in IH. rewrite length_app in IH. simpl in IH.
  destruct IH; lia.
Qed.

Lemma declares_within_capacity_witness :
  (flags_count flag_global_context ≤ flags_count example_context)%nat ∧
  (flags_count example_context ≤ FLAGS_CAP)%nat.
Proof.
  apply (declares_within_capacity flag_global_context example_context).
  - eapply declares_more with (d := declare_bool "verbose" false "more output");
      [reflexivity |].
    eapply declares_more with (d := declare_uint64 "count" 7 "how many");
      [reflexivity |].
    eapply declares_more with (d := declare_str "out" None "where to");
      [reflexivity | apply declares_none].
  - vm_compute. lia.
Defined.

(** X4. [flag_name] gives back the declared name from the handle that the
    declaration returned: after more declarations, and after a pass of
    [flag_parse] however it ends. *)
Theorem flag_name_of_handle d c0 h c1 c :
  declare d c0 = Some (h, c1) →
  declares c1 c →
  flag_name h c = Some (declared_name d) ∧
  ∀ errno argv b c' errno',
    flag_parse c errno argv = Returned b c' errno' →
    flag_name h c' = Some (declared_name d).
Proof.
  intros Hd Hmore.
  assert (Hh : flags c1 !! h = Some (declared_flag d)).
  { apply declare_flag in Hd as (-> & ->). unfold flags_count. simpl.
    rewrite lookup_app_r by lia. by rewrite Nat.sub_diag. }
  apply declares_prefix in Hmore.
  assert (Hc : flags c !! h = Some (declared_flag d))
    by (eapply prefix_lookup_Some; eauto).
  split; [unfold flag_name; by rewrite Hc |].
  intros errno argv b c' errno' Hp.
  apply flag_parse_updates in Hp.
  destruct (updates_lookup_l _ _ _ _ _ Hp Hc) as (f' & Hf' & _ & Hn & _).
  unfold flag_name. rewrite Hf'. simpl. by rewrite Hn.
Qed.

Lemma flag_name_of_handle_witness :
  flag_name 1 example_context = Some "count" ∧
  ∀ errno argv b c' errno',
    flag_parse example_context errno argv = Returned b c' errno' →
    flag_name 1 c' = Some "count".
Proof.
  eapply (flag_name_of_handle (declare_uint64 "count" 7 "how many")
            (assign_val 0 (as_bool false)
               (assign_def 0 (as_bool false)
                  (set_flags [mkFlag FLAG_BOOL "verbose" "more output"
                                (as_bool false) (as_bool false)]
                     flag_global_context)))
            1 _ example_context).
  - reflexivity.
  - eapply declares_more with (d := declare_str "out" None "where to");
      [reflexivity | apply declares_none].
Defined.

(** ** How [flag_parse] ends *)

Lemma flag_parse_reaches_suffix c0 e0 args0 c e args :
  flag_parse_reaches c0 e0 args0 c e args → args `suffix_of` args0.
Proof.
  induction 1 as [c e args|flag args c e c1 e1 args1 c2 e2 args2 Hb Hr IH];
    [done |].
  pose proof (flag_parse_body_inv flag c e args) as Hinv. rewrite Hb in Hinv.
  destruct Hinv as (_ & _ & _ & _ & _ & _ & Hsuf).
  apply suffix_cons_r. by etrans.
Qed.

(** X5. [flag_parse] ends for every argument vector: without an argument
    ([argc == 0]) the [assert] of [flag_shift_args] aborts, otherwise the
    call returns; the loop makes [argc - 1] iterations at most. *)
Theorem flag_parse_terminates c errno argv :
  (argv = [] ∧ flag_parse c errno argv = Aborted) ∨
  (argv ≠ [] ∧ ∃ b c' errno', flag_parse c errno argv = Returned b c' errno').
Proof.
  destruct argv as [|prog args]; [by left | right].
  split; [done |]. by apply flag_parse_returns.
Qed.

(** X6. After a pass that returns [true] the leftover arguments are a
    suffix of the arguments behind the program name, and [flag_rest_argc]
    is their number. *)
Theorem flag_parse_success_leftovers c errno argv c' errno' :
  flag_parse c errno argv = Returned true c' errno' →
  ∃ prog args, argv = prog :: args ∧
    flag_rest_argv c' `suffix_of` args ∧
    flag_rest_argc c' = Z.of_nat (length (flag_rest_argv c')).
Proof.
  intros Hp.
  destruct (flag_parse_ends _ _ _ _ _ _ Hp) as (c1 & e1 & args1 & Harr & Hend).
  destruct Harr as (prog & args0 & -> & Hr).
  exists prog, args0. split; [done |].
  apply flag_parse_reaches_suffix in Hr.
  destruct Hend as [(-> & _ & -> & _) | (flag & rest & -> & Hb)].
  { split; [apply suffix_nil | done]. }
  pose proof (flag_parse_body_inv flag c1 e1 rest) as Hinv. rewrite Hb in Hinv.
  destruct Hinv as (_ & _ & [-> | ->]); (split; [| done]); simpl.
  - done.
  - by eapply suffix_cons_l.
Qed.

Lemma flag_parse_success_leftovers_witness :
  ∃ prog args, ["prog"; "-verbose"; "a"; "b"] = prog :: args ∧
    flag_rest_argv
      (set_rest ["a"; "b"] (assign_val 0 (as_bool true) example_context))
      `suffix_of` args ∧
    flag_rest_argc
      (set_rest ["a"; "b"] (assign_val 0 (as_bool true) example_context)) =
    Z.of_nat (length (flag_rest_argv
      (set_rest ["a"; "b"] (assign_val 0 (as_bool true) example_context)))).
Proof.
  apply (flag_parse_success_leftovers example_context 0
           ["prog"; "-verbose"; "a"; "b"] _ 0).
  reflexivity.
Defined.

Lemma deref_dash flag : deref flag = "-"%char → flag = String "-" (ptr_add flag 1).
Proof.
  destruct flag as [|ch flag]; simpl; [discriminate |].
  intros ->. by destruct flag.
Qed.

(** X7. After a pass that returns [false] the error slot holds an error
    and the name of a dash-prefixed token of the arguments, and
    [flag_print_error] writes the line [ERROR: -name: reason] with one of
    the four reasons, never the text of the no-error case.  The leftover
    arguments are those of before the call: a failed pass does not set
    them. *)
Theorem flag_parse_failure_report c errno argv c' errno' :
  flag_parse c errno argv = Returned false c' errno' →
  ∃ prog args nm reason, argv = prog :: args ∧
    String "-" nm ∈ args ∧
    flag_error c' ≠ FLAG_NO_ERROR ∧
    flag_error_name c' = Some nm ∧
    reason ∈ error_reasons ∧
    flag_print_error c' = ("ERROR: -" ++ nm ++ ": " ++ reason ++ newline)%string ∧
    flag_rest_argc c' = flag_rest_argc c ∧
    flag_rest_argv c' = flag_rest_argv c.
Proof.
  intros Hp.
  destruct (flag_parse_ends _ _ _ _ _ _ Hp) as (c1 & e1 & args1 & Harr & Hend).
  destruct Harr as (prog & args0 & -> & Hr).
  destruct Hend as [(_ & [=] & _) | (flag & rest & -> & Hb)].
  pose proof (flag_parse_reaches_suffix _ _ _ _ _ _ Hr) as (pre & ->).
  apply flag_parse_reaches_while in Hr as (_ & _ & _ & _ & Hc & Hv & _).
  pose proof (flag_parse_body_inv flag c1 e1 rest) as Hinv. rewrite Hb in Hinv.
  destruct Hinv as (Htok & _ & He & Hn & Hc' & Hv').
  unfold flag_token in Htok. apply andb_true_iff in Htok as [Hd _].
  apply Ascii.eqb_eq, deref_dash in Hd.
  assert (Hreason : ∃ reason, reason ∈ error_reasons ∧
            flag_print_error c' =
            ("ERROR: -" ++ ptr_add flag 1 ++ ": " ++ reason ++ newline)%string).
  { unfold flag_print_error, error_reasons. rewrite Hn.
    destruct (flag_error c'); [done | | | |].
    - exists "unknown flag". split; [by left | reflexivity].
    - exists "no value provided". split; [right; by left | reflexivity].
    - exists "invalid number". split; [right; right; by left | reflexivity].
    - exists "integer overflow".
      split; [right; right; right; by left | reflexivity]. }
  destruct Hreason as (reason & Hin & Hprint).
  exists prog, (pre ++ flag :: rest), (ptr_add flag 1), reason.
  repeat split; try done.
  - rewrite <- Hd. apply elem_of_app. right. by left.
  - unfold flag_rest_argc. congruence.
  - unfold flag_rest_argv. congruence.
Qed.

Lemma flag_parse_failure_report_witness :
  let c' := set_error FLAG_ERROR_NO_VALUE "out"
              (assign_val 0 (as_bool true) example_context) in
  ∃ prog args nm reason, ["prog"; "-verbose"; "-out"] = prog :: args ∧
    String "-" nm ∈ args ∧
    flag_error c' ≠ FLAG_NO_ERROR ∧
    flag_error_name c' = Some nm ∧
    reason ∈ error_reasons ∧
    flag_print_error c' = ("ERROR: -" ++ nm ++ ": " ++ reason ++ newline)%string ∧
    flag_rest_argc c' = flag_rest_argc example_context ∧
    flag_rest_argv c' = flag_rest_argv example_context.
Proof.
  intros c'.
  apply (flag_parse_failure_report example_context 0
           ["prog"; "-verbose"; "-out"] c' 0).
  reflexivity.
Defined.

(** ** The values that a pass assigns *)

Lemma kept_or_set_refl args f : kept_or_set args f f.
Proof. by left. Qed.

Lemma kept_or_set_mono args args' f f' :
  (∀ a, a ∈ args → a ∈ args') → kept_or_set args f f' → kept_or_set args' f f'.
Proof.
  intros Hsub [-> | Hset]; [by left | right].
  destruct (type f); [done | done |].
  destruct Hset as (arg & Hin & ->). exists arg. split; [by apply Hsub | done].
Qed.

Lemma kept_or_set_shape args f f' :
  kept_or_set args f f' → f' = f ∨ ∃ v, f' = set_val v f.
Proof.
  intros [-> | Hset]; [by left | right].
  destruct (type f) eqn:Hty.
  - by eexists.
  - destruct Hset as (r & _ & ->). by eexists.
  - destruct Hset as (arg & _ & ->). by eexists.
Qed.

Lemma kept_or_set_trans args f f1 f2 :
  kept_or_set args f f1 → kept_or_set args f1 f2 → kept_or_set args f f2.
Proof.
  intros H1 [-> | H2]; [done |].
  assert (Ht : type f1 = type f ∧ ∀ v, set_val v f1 = set_val v f).
  { by destruct (kept_or_set_shape _ _ _ H1) as [-> | (v & ->)]. }
  destruct Ht as (Ht & Hset).
  right. rewrite Ht in H2. destruct (type f).
  - by rewrite H2, Hset.
  - destruct H2 as (r & Hr & ->). exists r. by rewrite Hset.
  - destruct H2 as (arg & Hin & ->). exists arg. by rewrite Hset.
Qed.

Lemma kept_or_set_alter args fs i v :
  (∀ f, fs !! i = Some f → kept_or_set args f (set_val v f)) →
  Forall2 (kept_or_set args) fs (alter (set_val v) i fs).
Proof.
  intros Hset. apply Forall2_alter_r.
  - apply Forall_Forall2_diag, Forall_forall. intros; apply kept_or_set_refl.
  - intros f g Hf Hg _. rewrite Hf in Hg. inversion Hg; subst g. by apply Hset.
Qed.

Lemma kept_or_set_all_trans args fs fs1 fs2 :
  Forall2 (kept_or_set args) fs fs1 → Forall2 (kept_or_set args) fs1 fs2 →
  Forall2 (kept_or_set args) fs fs2.
Proof. apply Forall2_trans. intros f g h. apply kept_or_set_trans. Qed.

Lemma kept_or_set_all_mono args args' fs fs' :
  (∀ a, a ∈ args → a ∈ args') →
  Forall2 (kept_or_set args) fs fs' → Forall2 (kept_or_set args') fs fs'.
Proof.
  intros Hsub Hall. eapply Forall2_impl; [exact Hall |].
  intros f f'. by apply kept_or_set_mono.
Qed.

Lemma isdigit_value ch : isdigit ch = true → 0 ≤ digit_value ch ≤ 9.
Proof.
  destruct ch as [[] [] [] [] [] [] [] []]; vm_compute;
    intuition congruence.
Qed.

Lemma decimal_from_nonneg ds : ∀ acc,
  all_chars isdigit ds = true → 0 ≤ acc → 0 ≤ decimal_from acc ds.
Proof.
  induction ds as [|ch ds IH]; intros acc Hds Hacc; simpl in *; [done |].
  apply andb_true_iff in Hds as [Hch Hds].
  apply IH; [done |]. apply isdigit_value in Hch. lia.
Qed.

(** A number stored by the integer case is in the range of [uint64_t]. *)
Lemma flag_parse_uint64_range i flag arg c errno c' errno' :
  flag_parse_uint64 i flag arg c errno = inl (c', errno') →
  ∃ r, 0 ≤ r ≤ ULLONG_MAX ∧ c' = assign_val i (as_uint64 r) c.
Proof.
  intros Hu.
  destruct (classic_numeral arg) as [(neg & v & Hnum) | Hno].
  2:{ destruct (flag_parse_uint64_invalid i flag arg c errno Hno) as (e' & He).
      by rewrite He in Hu. }
  unfold flag_parse_uint64 in Hu.
  destruct (strtoull_numeral arg neg v errno Hnum) as (Hs & Hlen & Hend).
  rewrite Hs in Hu. apply Nat.eqb_neq in Hlen.
  destruct (ULLONG_MAX <? v) eqn:Hv.
  { rewrite Hend, Hlen in Hu. by simpl in Hu. }
  rewrite Hend, Hlen in Hu. simpl in Hu.
  destruct (_ && _); inversion Hu; subst.
  exists (numeral_result neg v). split; [| done].
  apply Z.ltb_ge in Hv. unfold numeral_result. destruct neg.
  - pose proof (Z.mod_pos_bound (- v) (2 ^ 64)). unfold ULLONG_MAX. lia.
  - destruct Hnum as (ws & sg & ds & _ & _ & _ & _ & Hds & ->).
    split; [| done]. by apply decimal_from_nonneg.
Qed.

Lemma flag_parse_for_values n : ∀ i flag found c errno args found' st,
  flag_parse_for n i flag found c errno args = (found', st) →
  Forall2 (kept_or_set args) (flags c) (flags (step_ctx st)).
Proof.
  assert (Hrefl : ∀ args fs, Forall2 (kept_or_set args) fs fs).
  { intros. apply Forall_Forall2_diag, Forall_forall.
    intros; apply kept_or_set_refl. }
  induction n as [|n IH]; intros i flag found c errno args found' st Hfor;
    simpl in Hfor; [by inversion Hfor |].
  destruct (flags c !! i) as [f|] eqn:Hi; [| by inversion Hfor].
  destruct (String.eqb (name f) flag); [| by eapply IH].
  assert (Hstep : ∀ v e args1,
    (∀ a, a ∈ args1 → a ∈ args) →
    kept_or_set args f (set_val v f) →
    flag_parse_for n (S i) flag true (assign_val i v c) e args1 = (found', st) →
    Forall2 (kept_or_set args) (flags c) (flags (step_ctx st))).
  { intros v e args1 Hsub Hv Hrec. apply IH in Hrec.
    apply (kept_or_set_all_mono _ _ _ _ Hsub) in Hrec.
    eapply kept_or_set_all_trans; [| exact Hrec]. simpl.
    apply kept_or_set_alter. intros g Hg. rewrite Hi in Hg.
    by injection Hg as <-. }
  destruct (type f) eqn:Hty.
  - eapply Hstep; [| | exact Hfor]; [done |]. right. by rewrite Hty.
  - destruct args as [|arg args1]; [by inversion Hfor |].
    destruct (flag_parse_uint64 i flag arg c errno) as [[c1 e1]|[c1 e1]] eqn:Hu.
    + apply flag_parse_uint64_range in Hu as (r & Hr & ->).
      eapply Hstep; [| | exact Hfor]; [intros a Ha; by right |].
      right. rewrite Hty. by exists r.
    + inversion Hfor; subst. simpl.
      pose proof (flag_parse_uint64_cases i flag arg c errno) as Hc.
      rewrite Hu in Hc. by destruct Hc as [-> | ->].
  - destruct args as [|arg args1]; [by inversion Hfor |].
    eapply Hstep; [| | exact Hfor]; [intros a Ha; by right |].
    right. rewrite Hty. exists arg. split; [by left | done].
Qed.

Lemma flag_parse_body_values flag c errno args :
  Forall2 (kept_or_set args) (flags c)
          (flags (step_ctx (flag_parse_body flag c errno args))).
Proof.
  assert (Hrefl : Forall2 (kept_or_set args) (flags c) (flags c)).
  { apply Forall_Forall2_diag, Forall_forall. intros; apply kept_or_set_refl. }
  unfold flag_parse_body.
  destruct (negb _); [done |]. destruct (String.eqb flag "--"); [done |].
  destruct (flag_parse_for _ _ _ _ _ _ _) as [found st] eqn:Hfor.
  apply flag_parse_for_values in Hfor.
  destruct st as [c' e' args'|b c' e']; [| done].
  by destruct found.
Qed.

Lemma flag_parse_reaches_values c0 e0 args0 c e args :
  flag_parse_reaches c0 e0 args0 c e args →
  Forall2 (kept_or_set args0) (flags c0) (flags c).
Proof.
  induction 1 as [c e args|flag args c e c1 e1 args1 c2 e2 args2 Hb Hr IH].
  { apply Forall_Forall2_diag, Forall_forall. intros; apply kept_or_set_refl. }
  pose proof (flag_parse_body_values flag c e args) as Hv. rewrite Hb in Hv.
  pose proof (flag_parse_body_inv flag c e args) as Hinv. rewrite Hb in Hinv.
  destruct Hinv as (_ & _ & _ & _ & _ & _ & (pre & ->)).
  eapply kept_or_set_all_trans.
  - eapply kept_or_set_all_mono; [| exact Hv]. intros a Ha. by right.
  - eapply kept_or_set_all_mono; [| exact IH].
    intros a Ha. right. apply elem_of_app. by right.
Qed.

Lemma flag_parse_values c errno prog args b c' errno' :
  flag_parse c errno (prog :: args) = Returned b c' errno' →
  Forall2 (kept_or_set args) (flags c) (flags c').
Proof.
  intros Hp.
  destruct (flag_parse_ends _ _ _ _ _ _ Hp) as (c1 & e1 & args1 & Harr & Hend).
  destruct Harr as (prog' & args0 & [= <- <-] & Hr).
  pose proof (flag_parse_reaches_suffix _ _ _ _ _ _ Hr) as (pre & Hpre).
  apply flag_parse_reaches_values in Hr.
  destruct Hend as [(-> & _ & -> & _) | (flag & rest & -> & Hb)]; [done |].
  pose proof (flag_parse_body_values flag c1 e1 rest) as Hv. rewrite Hb in Hv.
  eapply kept_or_set_all_trans; [exact Hr |].
  eapply kept_or_set_all_mono; [| exact Hv].
  intros a Ha. rewrite Hpre. apply elem_of_app. right. by right.
Qed.

(** X8. Whatever a pass of [flag_parse] does to a flag, the flag keeps
    its type, name, description and default, and its current value is the
    one of before the pass or one that the parser assigns to a flag of
    its type: [true] for a boolean flag, a token of the arguments for a
    string flag (never the null pointer), a number for an integer
    flag. *)
Theorem flag_parse_assigns_typed_values c errno prog args b c' errno' j f :
  flag_parse c errno (prog :: args) = Returned b c' errno' →
  flags c !! j = Some f →
  ∃ f', flags c' !! j = Some f' ∧
    type f' = type f ∧ name f' = name f ∧ desc f' = desc f ∧ def f' = def f ∧
    (val f' = val f ∨
     match type f with
     | FLAG_BOOL => val f' = as_bool true
     | FLAG_STR => ∃ arg, arg ∈ args ∧ val f' = as_str (Some arg)
     | FLAG_UINT64 => ∃ r, 0 ≤ r ≤ ULLONG_MAX ∧ val f' = as_uint64 r
     end).
Proof.
  intros Hp Hj. apply flag_parse_values in Hp.
  destruct (Forall2_lookup_l _ _ _ _ _ Hp Hj) as (f' & Hf' & Hk).
  exists f'. split; [done |].
  destruct Hk as [-> | Hset]; [by repeat split; try left |].
  destruct (type f) eqn:Hty.
  - subst f'. simpl. repeat split; try done. by right.
  - destruct Hset as (r & Hr & ->). simpl. repeat split; try done.
    right. by exists r.
  - destruct Hset as (arg & Hin & ->). simpl. repeat split; try done.
    right. by exists arg.
Qed.

Lemma flag_parse_assigns_typed_values_witness :
  ∃ f', flags (set_rest ["x"] (assign_val 2 (as_str (Some "-v")) example_context))
          !! 2%nat = Some f' ∧
    type f' = FLAG_STR ∧ name f' = "out" ∧ desc f' = "where to" ∧
    def f' = as_str None ∧
    (val f' = as_str None ∨
     ∃ arg, arg ∈ ["-out"; "-v"; "x"] ∧ val f' = as_str (Some arg)).
Proof.
  apply (flag_parse_assigns_typed_values example_context 0 "prog"
           ["-out"; "-v"; "x"] true _ 0 2
           (mkFlag FLAG_STR "out" "where to" (as_str None) (as_str None)));
    reflexivity.
Defined.

(** X9. Parsing never clears a boolean flag: a boolean flag that is
    [true] before a pass (by its default or by an earlier pass) is [true]
    after it, whatever the arguments and however the pass ends. *)
Theorem flag_parse_bool_stays_true c errno argv b c' errno' j f :
  flag_parse c errno argv = Returned b c' errno' →
  flags c !! j = Some f → type f = FLAG_BOOL → val f = as_bool true →
  ∃ f', flags c' !! j = Some f' ∧ val f' = as_bool true.
Proof.
  intros Hp Hj Hty Hval.
  destruct argv as [|prog args]; [done |].
  apply flag_parse_values in Hp.
  destruct (Forall2_lookup_l _ _ _ _ _ Hp Hj) as (f' & Hf' & Hk).
  exists f'. split; [done |]. unfold kept_or_set in Hk. rewrite Hty in Hk.
  destruct Hk as [-> | ->]; done.
Qed.

Lemma flag_parse_bool_stays_true_witness :
  ∃ f', flags (set_error FLAG_ERROR_UNKNOWN "x"
                 (assign_val 0 (as_bool true) example_context)) !! 0%nat
          = Some f' ∧ val f' = as_bool true.
Proof.
  apply (flag_parse_bool_stays_true
           (assign_val 0 (as_bool true) example_context) 0
           ["prog"; "-verbose"; "-x"] false _ 0 0
           (mkFlag FLAG_BOOL "verbose" "more output" (as_bool true) (as_bool false)));
    reflexivity.
Defined.

(** X10. The current value of an integer flag stays in the range of
    [uint64_t]: if it is between 0 and [ULLONG_MAX] before a pass, it is
    after the pass, for every argument vector (signs, overflowing and
    malformed numbers included). *)
Theorem flag_parse_uint64_in_range c errno argv b c' errno' j f n :
  flag_parse c errno argv = Returned b c' errno' →
  flags c !! j = Some f → type f = FLAG_UINT64 →
  val f = as_uint64 n → 0 ≤ n ≤ ULLONG_MAX →
  ∃ f' n', flags c' !! j = Some f' ∧ val f' = as_uint64 n' ∧
           0 ≤ n' ≤ ULLONG_MAX.
Proof.
  intros Hp Hj Hty Hval Hn.
  destruct argv as [|prog args]; [done |].
  apply flag_parse_values in Hp.
  destruct (Forall2_lookup_l _ _ _ _ _ Hp Hj) as (f' & Hf' & Hk).
  unfold kept_or_set in Hk. rewrite Hty in Hk.
  destruct Hk as [-> | (r & Hr & ->)].
  - by exists f, n.
  - by exists (set_val (as_uint64 r) f), r.
Qed.

Lemma flag_parse_uint64_in_range_witness :
  ∃ f' n', flags (set_rest [] (assign_val 1 (as_uint64 18446744073709551614)
                                 example_context)) !! 1%nat = Some f' ∧
           val f' = as_uint64 n' ∧ 0 ≤ n' ≤ ULLONG_MAX.
Proof.
  apply (flag_parse_uint64_in_range example_context 0
           ["prog"; "-count"; "-2"] true _ 0 1
           (mkFlag FLAG_UINT64 "count" "how many" (as_uint64 7) (as_uint64 7)) 7);
    try reflexivity.
  vm_compute. split; discriminate.
Defined.

(** ** A flag token whose name is declared once *)

(** With one flag of the looked-up name, the body of the loop is a lookup
    and one assignment. *)
Lemma flag_parse_body_unique flag c errno rest i f :
  deref flag = "-"%char → flag ≠ "--" →
  flags c !! i = Some f → name f = ptr_add flag 1 →
  (∀ j g, flags c !! j = Some g → name g = name f → j = i) →
  flag_parse_body flag c errno rest =
  match type f with
  | FLAG_BOOL => Continue (assign_val i (as_bool true) c) errno rest
  | FLAG_STR =>
      match rest with
      | [] => Return false (set_error FLAG_ERROR_NO_VALUE (name f) c) errno
      | arg :: rest' => Continue (assign_val i (as_str (Some arg)) c) errno rest'
      end
  | FLAG_UINT64 =>
      match rest with
      | [] => Return false (set_error FLAG_ERROR_NO_VALUE (name f) c) errno
      | arg :: rest' =>
          match flag_parse_uint64 i (name f) arg c errno with
          | inr (c', errno') => Return false c' errno'
          | inl (c', errno') => Continue c' errno' rest'
          end
      end
  end.
Proof.
  intros Hd Ht Hi Hn Huniq. rewrite Hn in *.
  assert (Hfirst : ∀ j g, (j < i)%nat → flags c !! j = Some g →
                          name g ≠ ptr_add flag 1).
  { intros j g Hj Hg Hname. specialize (Huniq j g Hg Hname). lia. }
  rewrite (flag_parse_body_first flag c errno rest i f Hd Ht Hi Hfirst).
  assert (Hafter : ∀ v e args1,
    after_for (ptr_add flag 1)
      (flag_parse_for (flags_count c - S i) (S i) (ptr_add flag 1) true
         (assign_val i v c) e args1)
    = Continue (assign_val i v c) e args1).
  { intros v e args1. apply after_for_assigned. intros j g Hj Hg Hname.
    rewrite assign_val_lookup_ne in Hg by lia.
    specialize (Huniq j g Hg Hname). lia. }
  destruct (type f) eqn:Hty.
  - rewrite (flag_parse_for_bool _ _ _ _ _ _ _ f Hi Hn Hty). apply Hafter.
  - rewrite (flag_parse_for_uint64 _ _ _ _ _ _ _ f Hi Hn Hty).
    destruct rest as [|arg rest']; [done |].
    pose proof (flag_parse_uint64_cases i (ptr_add flag 1) arg c errno) as Hc.
    destruct (flag_parse_uint64 i (ptr_add flag 1) arg c errno)
      as [[c1 e1]|[c1 e1]]; [| done].
    destruct Hc as (r & ->). apply Hafter.
  - rewrite (flag_parse_for_string _ _ _ _ _ _ _ f Hi Hn Hty).
    destruct rest as [|arg rest']; [done |]. apply Hafter.
Qed.

(** X11. A boolean flag is a switch: when the pass arrives at the token
    of a boolean flag (the first flag of that name), the current value of
    the flag becomes [true]; when the name is declared once, nothing else
    changes and no argument is taken for it, the pass goes on with the
    very next token. *)
Theorem flag_parse_bool_flag c0 errno0 argv c errno flag rest i f :
  flag_parse_arrives c0 errno0 argv c errno (flag :: rest) →
  deref flag = "-"%char → flag ≠ "--" →
  flags c !! i = Some f → name f = ptr_add flag 1 → type f = FLAG_BOOL →
  (∀ j g, (j < i)%nat → flags c !! j = Some g → name g ≠ name f) →
  flags (step_ctx (flag_parse_body flag c errno rest)) !! i =
    Some (set_val (as_bool true) f) ∧
  ((∀ j g, (i < j)%nat → flags c !! j = Some g → name g ≠ name f) →
   flag_parse_body flag c errno rest =
     Continue (assign_val i (as_bool true) c) errno rest ∧
   flag_parse_arrives c0 errno0 argv (assign_val i (as_bool true) c) errno rest).
Proof.
  intros Harr Hd Ht Hi Hn Hty Hfirst. rewrite Hn in *.
  pose proof (flag_parse_body_first flag c errno rest i f Hd Ht Hi Hfirst) as Hb.
  rewrite (flag_parse_for_bool _ _ _ _ _ _ _ f Hi Hn Hty) in Hb.
  rewrite Hb.
  destruct (after_for_assigned (flags_count c - S i) i (ptr_add flag 1)
              (assign_val i (as_bool true) c) errno rest) as (Hval & Hcont).
  split; [by rewrite Hval, (assign_val_lookup _ _ _ f) |].
  intros Hlater.
  assert (Hst : after_for (ptr_add flag 1)
            (flag_parse_for (flags_count c - S i) (S i) (ptr_add flag 1) true
               (assign_val i (as_bool true) c) errno rest)
          = Continue (assign_val i (as_bool true) c) errno rest).
  { apply Hcont. intros j g Hj Hg.
    rewrite assign_val_lookup_ne in Hg by lia. by eapply Hlater. }
  split; [done |].
  eapply flag_parse_arrives_next; [exact Harr |]. by rewrite Hb.
Qed.

Lemma flag_parse_bool_flag_witness :
  let argv := ["prog"; "-verbose"; "-count"; "1"] in
  let c := example_context in
  let f := mkFlag FLAG_BOOL "verbose" "more output" (as_bool false) (as_bool false) in
  flags (step_ctx (flag_parse_body "-verbose" c 0 ["-count"; "1"])) !! 0%nat =
    Some (set_val (as_bool true) f) ∧
  ((∀ j g, (0 < j)%nat → flags c !! j = Some g → name g ≠ "verbose") →
   flag_parse_body "-verbose" c 0 ["-count"; "1"] =
     Continue (assign_val 0 (as_bool true) c) 0 ["-count"; "1"] ∧
   flag_parse_arrives c 0 argv (assign_val 0 (as_bool true) c) 0 ["-count"; "1"]).
Proof.
  intros argv c f.
  apply (flag_parse_bool_flag c 0 argv c 0 "-verbose" ["-count"; "1"] 0 f).
  - exists "prog", ["-verbose"; "-count"; "1"].
    split; [reflexivity | apply reaches_here].
  - reflexivity.
  - discriminate.
  - reflexivity.
  - reflexivity.
  - reflexivity.
  - intros j g Hj. lia.
Defined.

(** X12. A flag given twice keeps its last value: when a string flag
    whose name is declared once is given with the value [a] and at once
    again with the value [b], the pass goes on behind the second value in
    the state that the second pair alone produces; the value [a] leaves
    no trace. *)
Theorem flag_parse_string_last_wins c0 errno0 argv c errno flag a b rest i f :
  flag_parse_arrives c0 errno0 argv c errno (flag :: a :: flag :: b :: rest) →
  deref flag = "-"%char → flag ≠ "--" →
  flags c !! i = Some f → name f = ptr_add flag 1 → type f = FLAG_STR →
  (∀ j g, flags c !! j = Some g → name g = name f → j = i) →
  flag_parse_arrives c0 errno0 argv (assign_val i (as_str (Some b)) c) errno rest ∧
  flag_parse_body flag c errno (b :: rest) =
    Continue (assign_val i (as_str (Some b)) c) errno rest.
Proof.
  intros Harr Hd Ht Hi Hn Hty Huniq.
  pose proof (flag_parse_body_unique flag c errno (a :: flag :: b :: rest) i f
                Hd Ht Hi Hn Huniq) as Hb1.
  pose proof (flag_parse_body_unique flag c errno (b :: rest) i f
                Hd Ht Hi Hn Huniq) as Hb.
  rewrite Hty in Hb1, Hb. split; [| done].
  pose proof (flag_parse_arrives_next _ _ _ _ _ _ _ _ _ _ Harr Hb1) as Harr1.
  set (c1 := assign_val i (as_str (Some a)) c) in *.
  assert (Hi1 : flags c1 !! i = Some (set_val (as_str (Some a)) f))
    by (by apply assign_val_lookup).
  assert (Huniq1 : ∀ j g, flags c1 !! j = Some g →
            name g = name (set_val (as_str (Some a)) f) → j = i).
  { intros j g Hg Hname. destruct (decide (j = i)) as [|Hne]; [done |].
    unfold c1 in Hg. rewrite assign_val_lookup_ne in Hg by done.
    by apply (Huniq j g). }
  pose proof (flag_parse_body_unique flag c1 errno (b :: rest) i _
                Hd Ht Hi1 Hn Huniq1) as Hb2.
  simpl type in Hb2. rewrite Hty in Hb2.
  pose proof (flag_parse_arrives_next _ _ _ _ _ _ _ _ _ _ Harr1 Hb2) as Harr2.
  replace (assign_val i (as_str (Some b)) c1)
    with (assign_val i (as_str (Some b)) c) in Harr2; [done |].
  unfold c1, assign_val, set_flags. simpl.
  rewrite list_alter_alter_eq. done.
Qed.

Lemma flag_parse_string_last_wins_witness :
  flag_parse_arrives example_context 0 ["prog"; "-out"; "a"; "-out"; "b"; "x"]
    (assign_val 2 (as_str (Some "b")) example_context) 0 ["x"] ∧
  flag_parse_body "-out" example_context 0 ["b"; "x"] =
    Continue (assign_val 2 (as_str (Some "b")) example_context) 0 ["x"].
Proof.
  apply (flag_parse_string_last_wins example_context 0
           ["prog"; "-out"; "a"; "-out"; "b"; "x"] example_context 0
           "-out" "a" "b" ["x"] 2
           (mkFlag FLAG_STR "out" "where to" (as_str None) (as_str None))).
  - exists "prog", ["-out"; "a"; "-out"; "b"; "x"].
    split; [reflexivity | apply reaches_here].
  - reflexivity.
  - discriminate.
  - reflexivity.
  - reflexivity.
  - reflexivity.
  - intros [|[|[|j]]] g Hg Hname; vm_compute in Hg; try discriminate;
      [| | reflexivity]; injection Hg as <-; discriminate.
Defined.

(** ** The usage text: [flag_print_options] *)

Lemma print_options_app fs1 fs2 :
  print_options (fs1 ++ fs2) = (print_options fs1 ++ print_options fs2)%string.
Proof.
  induction fs1 as [|f fs1 IH]; [done |].
  change ((f :: fs1) ++ fs2) with (f :: (fs1 ++ fs2)). cbn [print_options].
  by rewrite IH, string_app_assoc.
Qed.

Lemma print_options_updates seen fs fs' :
  updates seen fs fs' → print_options fs' = print_options fs.
Proof.
  induction 1 as [|f f' fs fs' (Ht & Hn & Hd & Hdf & _) _ IH];
    cbn [print_options]; [done |].
  rewrite IH. f_equal. unfold print_option. by rewrite Ht, Hn, Hd, Hdf.
Qed.

(** X13. The usage text does not depend on the command line: after a pass
    of [flag_parse], however it ends, [flag_print_options] writes what it
    would have written before the pass (it shows defaults, not current
    values). *)
Theorem flag_print_options_after_parse c errno argv b c' errno' :
  flag_parse c errno argv = Returned b c' errno' →
  flag_print_options c' = flag_print_options c.
Proof.
  intros Hp. apply flag_parse_updates in Hp.
  by eapply print_options_updates.
Qed.

Lemma flag_print_options_after_parse_witness :
  flag_print_options
    (set_error FLAG_ERROR_INVALID_NUMBER "count"
       (assign_val 0 (as_bool true) example_context))
  = flag_print_options example_context.
Proof.
  apply (flag_print_options_after_parse example_context 0
           ["prog"; "-verbose"; "-count"; "1x"] false _ 0).
  reflexivity.
Defined.

(** X14. The usage text lists the flags in the order of their
    declaration: a declaration adds its entry at the end of the text and
    leaves the entries before it as they are.  The entry shows the name,
    the description and the default; the default is left out for a
    boolean flag that is off and for a string flag without a default. *)
Theorem flag_print_options_declare d c h c1 :
  declare d c = Some (h, c1) →
  flag_print_options c1 = (flag_print_options c ++ declared_entry d)%string.
Proof.
  intros (_ & ->)%declare_flag. unfold flag_print_options.
  cbn [flags set_flags]. rewrite print_options_app. f_equal.
  cbn [print_options]. rewrite string_app_nil_r.
  destruct d as [nm [] ds|nm n ds|nm [s|] ds]; reflexivity.
Qed.

Lemma flag_print_options_declare_witness :
  flag_print_options
    (default example_context
       (snd <$> flag_bool "t" true "on" example_context))
  = (flag_print_options example_context ++
     declared_entry (declare_bool "t" true "on"))%string.
Proof.
  apply (flag_print_options_declare (declare_bool "t" true "on")
           example_context 3).
  reflexivity.
Defined.

(** ** Printed defaults parse back *)

Lemma string_of_uint_digits u :
  all_chars isdigit (NilEmpty.string_of_uint u) = true.
Proof. induction u; simpl; auto. Qed.

Lemma decimal_from_of_uint_acc u : ∀ acc,
  decimal_from (Z.pos acc) (NilEmpty.string_of_uint u) =
  Z.pos (Pos.of_uint_acc u acc).
Proof.
  induction u as [|u IH|u IH|u IH|u IH|u IH|u IH|u IH|u IH|u IH|u IH];
    intros acc; simpl; [done | ..];
    rewrite <- IH; f_equal; unfold digit_value;
    match goal with
    | |- context [Z.of_nat (nat_of_ascii ?ch)] =>
        let v := eval vm_compute in (Z.of_nat (nat_of_ascii ch)) in
        change (Z.of_nat (nat_of_ascii ch)) with v
    end; lia.
Qed.

Lemma decimal_value_of_uint u :
  decimal_value (NilEmpty.string_of_uint u) = Z.of_N (Pos.of_uint u).
Proof.
  unfold decimal_value.
  induction u as [|u IH|u IH|u IH|u IH|u IH|u IH|u IH|u IH|u IH|u IH];
    simpl; [done | exact IH | ..];
    rewrite <- decimal_from_of_uint_acc; f_equal.
Qed.

(** The digits printed for a number of the range are a numeral of that
    value. *)
Lemma print_uint64_numeral n :
  0 ≤ n → numeral (print_uint64 n) false n.
Proof.
  intros Hn. unfold print_uint64.
  exists "", "", (NilEmpty.string_of_uint (N.to_uint (Z.to_N n))).
  split; [done |]. split; [done |]. split; [by left |].
  split; [| split; [apply string_of_uint_digits |]].
  - intros Hnil.
    pose proof (DecimalN.Unsigned.of_to (Z.to_N n)) as Hof.
    destruct (N.to_uint (Z.to_N n)) eqn:Hu; try done.
    simpl in Hof. destruct (Z.to_N n); [done |].
    simpl in Hu. pose proof (DecimalPos.Unsigned.of_to p) as Hp.
    rewrite Hu in Hp. done.
  - rewrite decimal_value_of_uint.
    change (Pos.of_uint (N.to_uint (Z.to_N n)))
      with (N.of_uint (N.to_uint (Z.to_N n))).
    rewrite DecimalN.Unsigned.of_to. by rewrite Z2N.id.
Qed.

(** X15. A default as [flag_print_options] prints it is a value that
    [flag_parse] takes back: given as the value of an integer flag whose
    name is declared once, the printed digits of a number of the range of
    [uint64_t] store that number in the flag (stated for [errno] other
    than [ERANGE] on entry, or a number other than [ULLONG_MAX]). *)
Theorem flag_parse_printed_uint64 flag c errno rest i f n :
  deref flag = "-"%char → flag ≠ "--" →
  flags c !! i = Some f → name f = ptr_add flag 1 → type f = FLAG_UINT64 →
  (∀ j g, flags c !! j = Some g → name g = name f → j = i) →
  0 ≤ n ≤ ULLONG_MAX →
  errno ≠ ERANGE ∨ n ≠ ULLONG_MAX →
  flag_parse_body flag c errno (print_uint64 n :: rest) =
  Continue (assign_val i (as_uint64 n) c) errno rest.
Proof.
  intros Hd Ht Hi Hn Hty Huniq Hrange Hstale.
  rewrite (flag_parse_body_unique flag c errno _ i f Hd Ht Hi Hn Huniq), Hty.
  rewrite (flag_parse_uint64_stored i (name f) (print_uint64 n) c errno false n);
    [done | | lia | done].
  apply print_uint64_numeral. lia.
Qed.

Lemma flag_parse_printed_uint64_witness :
  flag_parse_body "-count" example_context 0
    [print_uint64 18446744073709551615; "x"] =
  Continue (assign_val 1 (as_uint64 18446744073709551615) example_context) 0 ["x"].
Proof.
  apply (flag_parse_printed_uint64 "-count" example_context 0 ["x"] 1
           (mkFlag FLAG_UINT64 "count" "how many" (as_uint64 7) (as_uint64 7))
           18446744073709551615).
  - reflexivity.
  - discriminate.
  - reflexivity.
  - reflexivity.
  - reflexivity.
  - intros [|[|[|j]]] g Hg Hname; vm_compute in Hg; try discriminate;
      [| reflexivity |]; injection Hg as <-; discriminate.
  - vm_compute. split; discriminate.
  - left. discriminate.
Defined.

(** ** The end of the arguments *)

(** X16. When the pass arrives at the end of the arguments (every token
    was a flag or the value of a flag), [flag_parse] returns [true] with
    no leftover argument; flags and error slot are as the last iteration
    left them. *)
Theorem flag_parse_exhausts_arguments c0 errno0 argv c errno :
  flag_parse_arrives c0 errno0 argv c errno [] →
  ∃ c', flag_parse c0 errno0 argv = Returned true c' errno ∧
        flag_rest_argv c' = [] ∧ flag_rest_argc c' = 0 ∧
        flags c' = flags c ∧
        flag_error c' = flag_error c0 ∧ flag_error_name c' = flag_error_name c0.
Proof.
  intros Harr. exists (set_rest [] c).
  rewrite (flag_parse_arrives_while _ _ _ _ _ _ Harr). simpl.
  destruct Harr as (prog & args0 & -> & Hr).
  apply flag_parse_reaches_while in Hr as (_ & _ & He & Hn & _).
  done.
Qed.

Lemma flag_parse_exhausts_arguments_witness :
  ∃ c', flag_parse example_context 0 ["prog"; "-out"; "f"; "-verbose"]
          = Returned true c' 0 ∧
        flag_rest_argv c' = [] ∧ flag_rest_argc c' = 0 ∧
        flags c' = flags (assign_val 0 (as_bool true)
                            (assign_val 2 (as_str (Some "f")) example_context)) ∧
        flag_error c' = flag_error example_context ∧
        flag_error_name c' = flag_error_name example_context.
Proof.
  apply (flag_parse_exhausts_arguments example_context 0
           ["prog"; "-out"; "f"; "-verbose"]
           (assign_val 0 (as_bool true)
              (assign_val 2 (as_str (Some "f")) example_context)) 0).
  exists "prog", ["-out"; "f"; "-verbose"]. split; [reflexivity |].
  eapply reaches_next; [vm_compute; reflexivity |].
  eapply reaches_next; [vm_compute; reflexivity | apply reaches_here].
Defined.
